(** * The history cache of plotly-graph-card ([src/cache/Cache.ts])

    A shallow embedding of the cache that keeps, per series, the list of
    covered timestamp ranges and the merged list of observations, together
    with the properties of its operations [add], [getHistory],
    [removeOutsideRange], [fetchSingleRange] and [update].

    JavaScript numbers are modelled as integers extended with the two
    infinities ([Number.NEGATIVE_INFINITY] and [Number.POSITIVE_INFINITY] are
    used as sentinels by [removeOutsideRange]); timestamps of observations and
    clock readings are plain integers (milliseconds since the epoch).  The
    two objects used as maps, [ranges] and [histories], are finite maps from
    keys to lists.  The asynchronous [update] is a transition system: one
    step per call of a method and per answer of the fetch adapter, each step
    running to the next [await] as the event loop of JavaScript does.

    [Cache.ts] imports the range arithmetic from [./date-ranges] and the
    descriptor type from [../types]; those two modules are modelled from
    the specification, and marked so. *)

From Stdlib Require Import ZArith Lia Bool.
From stdpp Require Import gmap strings list fin_maps sorting.

Local Open Scope Z_scope.

(** ** Numbers *)

Module Num.

Inductive num : Type :=
| NegInf
| Fin (z : Z)
| PosInf.

(** [a <= b] on JavaScript numbers. *)
Definition leb (a b : num) : bool :=
  match a, b with
  | NegInf, _ => true
  | _, PosInf => true
  | Fin x, Fin y => x <=? y
  | _, _ => false
  end.

(** [a < b] on JavaScript numbers. *)
Definition ltb (a b : num) : bool :=
  match a, b with
  | PosInf, _ => false
  | _, NegInf => false
  | Fin x, Fin y => x <? y
  | _, _ => true
  end.

(** [a + 1]: the infinities absorb the addition. *)
Definition succ (a : num) : num :=
  match a with
  | Fin x => Fin (x + 1)
  | _ => a
  end.

(** [a - 1]. *)
Definition pred (a : num) : num :=
  match a with
  | Fin x => Fin (x - 1)
  | _ => a
  end.

(** [Math.min(a, b)] and [Math.max(a, b)]. *)
Definition min (a b : num) : num := if leb a b then a else b.
Definition max (a b : num) : num := if leb a b then b else a.

Definition le (a b : num) : Prop := leb a b = true.
Definition lt (a b : num) : Prop := ltb a b = true.

Definition is_fin (a : num) : Prop :=
  match a with Fin _ => True | _ => False end.

End Num.

Import Num.

Abbreviation num := Num.num.
Infix "<=!" := Num.le (at level 70, no associativity).
Infix "<!" := Num.lt (at level 70, no associativity).

(** Case analysis on every number in sight, then linear arithmetic. *)
Ltac num_cases :=
  repeat match goal with
         | a : num |- _ => destruct a
         end.

Ltac num_simpl :=
  unfold Num.le, Num.lt, Num.min, Num.max, Num.succ, Num.pred, Num.leb, Num.ltb,
    Num.is_fin in *.

Ltac num_bool :=
  repeat match goal with
         | H : context [(_ <=? _)] |- _ => revert H
         | H : context [(_ <? _)] |- _ => revert H
         end;
  repeat match goal with
         | |- context [(?x <=? ?y)] => destruct (Z.leb_spec x y)
         | |- context [(?x <? ?y)] => destruct (Z.ltb_spec x y)
         end.

Ltac num_lia :=
  intros; num_cases; num_simpl; simpl in *; num_bool; intros;
  try discriminate; try tauto; try lia;
  try (split; intros; try discriminate; try tauto; try congruence; lia).

(** ** Timestamp ranges ([TimestampRange] of [../types]) *)

Definition TimestampRange : Type := num * num.

(** An integer instant lies in a range, both ends included. *)
Definition in_range (x : Z) (r : TimestampRange) : Prop :=
  r.1 <=! Fin x ∧ Fin x <=! r.2.

Definition in_ranges (x : Z) (rs : list TimestampRange) : Prop :=
  Exists (in_range x) rs.

Definition ordered (r : TimestampRange) : Prop := r.1 <=! r.2.

Definition finite (r : TimestampRange) : Prop :=
  Num.is_fin r.1 ∧ Num.is_fin r.2.

(** ** Range arithmetic ([./date-ranges]) *)

(** Modelled from the spec: [compactRanges] of [./date-ranges], which is not
    among the sources at hand; this is its first step, "sort by start"
    (section 4.1), as a stable insertion sort. *)
Fixpoint insert_by_start (r : TimestampRange) (rs : list TimestampRange)
  : list TimestampRange :=
  match rs with
  | [] => [r]
  | r' :: rs' =>
      if Num.leb r.1 r'.1 then r :: r' :: rs'
      else r' :: insert_by_start r rs'
  end.

(** Modelled from the spec: the sort by start of [compactRanges]. *)
Definition sort_by_start (rs : list TimestampRange) : list TimestampRange :=
  foldr insert_by_start [] rs.

(** Modelled from the spec: the second step of [compactRanges] (section
    4.1): merge any pair where the next range starts at or before the end
    of the current one, adjacency (distance 1 between the integer ends,
    section 9) counting as overlap, into one range spanning
    min(start)..max(end). *)
Fixpoint merge_from (cur : TimestampRange) (rs : list TimestampRange)
  : list TimestampRange :=
  match rs with
  | [] => [cur]
  | next :: rs' =>
      if Num.leb next.1 (Num.succ cur.2)
      then merge_from (Num.min cur.1 next.1, Num.max cur.2 next.2) rs'
      else cur :: merge_from next rs'
  end.

(** Modelled from the spec: [compactRanges] of [./date-ranges], which is not
    among the sources at hand (section 4.1: sort by start, then merge). *)
Definition compactRanges (rs : list TimestampRange) : list TimestampRange :=
  match sort_by_start rs with
  | [] => []
  | r :: rs' => merge_from r rs'
  end.

(** Modelled from the spec: the covered ranges "that intersect" a target, in
    [subtractRanges] (section 4.1), ranges being inclusive. *)
Definition intersects (t c : TimestampRange) : bool :=
  Num.leb c.1 t.2 && Num.leb t.1 c.2.

(** Modelled from the spec: the walk of [subtractRanges] (section 4.1):
    emit the gap before each intersecting covered range, advance the cursor
    to the covered range's end, and emit a final gap from the cursor to the
    target's end if nonempty; the gaps are 1 unit away from the covered
    ranges (scenario B). *)
Fixpoint subtract_walk (cursor tend : num) (covered : list TimestampRange)
  : list TimestampRange :=
  match covered with
  | [] => if Num.leb cursor tend then [(cursor, tend)] else []
  | c :: covered' =>
      (if Num.ltb cursor c.1 then [(cursor, Num.pred c.1)] else [])
        ++ subtract_walk (Num.succ c.2) tend covered'
  end.

(** Modelled from the spec: [subtractRanges] for one target (section 4.1:
    walk the covered ranges that intersect it, in order). *)
Definition subtract_single (t : TimestampRange)
  (covered : list TimestampRange) : list TimestampRange :=
  subtract_walk t.1 t.2 (filter (λ c, intersects t c = true) covered).

(** Modelled from the spec: the gaps of the walks of a list of targets, one
    target after the other (section 4.1: "for each target range"). *)
Definition subtract_each (targets covered : list TimestampRange)
  : list TimestampRange :=
  concat (map (λ t, subtract_single t covered) targets).

(** Modelled from the spec: [subtractRanges] of [./date-ranges], which is not
    among the sources at hand.  Section 4.1: the targets are treated as an
    interval set, and each range of that set is walked; the interval set of
    a list of ranges is its compaction, so that the output is the sorted
    list of the maximal uncovered sub-ranges whatever the order of the
    targets, and [subtract(T, []) == compact(T)] (section 8). *)
Definition subtractRanges (targets covered : list TimestampRange)
  : list TimestampRange :=
  subtract_each (compactRanges targets) covered.

(** A finite range, written with its two integer ends. *)
Definition zr (a b : Z) : TimestampRange := (Fin a, Fin b).

(** ** Observations and series descriptors ([../types]) *)

(** [EntityState]: [fake_boundary_datapoint] is an optional field, absent
    meaning false. *)
Record EntityState : Type := mkEntityState {
  timestamp : Z;
  state : string;
  fake_boundary_datapoint : bool;
}.

Record HistoryInRange : Type := mkHistoryInRange {
  range : TimestampRange;
  history : list EntityState;
}.

(** Modelled from the spec: the descriptor type [EntityConfig] of [../types],
    which is not among the sources at hand.  Sections 3, 6 and 7: a
    descriptor is an entity with an attribute, an entity with a statistic
    and a period, or an entity alone; a malformed descriptor matches none of
    the recognised shapes. *)
Inductive EntityConfig : Type :=
| EntityIdState (entity : string)
| EntityIdAttr (entity attribute : string)
| EntityIdStatistics (entity statistic period : string)
| EntityMalformed (json : string).

(** Modelled from the spec: the guard [isEntityIdAttrConfig] of [../types]
    (an entity with an attribute). *)
Definition isEntityIdAttrConfig (e : EntityConfig) : bool :=
  match e with EntityIdAttr _ _ => true | _ => false end.

(** Modelled from the spec: the guard [isEntityIdStatisticsConfig] of
    [../types] (an entity with a statistic and a period). *)
Definition isEntityIdStatisticsConfig (e : EntityConfig) : bool :=
  match e with EntityIdStatistics _ _ _ => true | _ => false end.

(** Modelled from the spec: the guard [isEntityIdStateConfig] of [../types]
    (an entity alone). *)
Definition isEntityIdStateConfig (e : EntityConfig) : bool :=
  match e with EntityIdState _ => true | _ => false end.

(** The fields [entity.entity], [entity.attribute], [entity.statistic] and
    [entity.period] of a descriptor. *)
Definition entity_of (e : EntityConfig) : string :=
  match e with
  | EntityIdState n | EntityIdAttr n _ | EntityIdStatistics n _ _ => n
  | EntityMalformed _ => EmptyString
  end.

Definition attribute_of (e : EntityConfig) : string :=
  match e with EntityIdAttr _ a => a | _ => EmptyString end.

Definition statistic_of (e : EntityConfig) : string :=
  match e with EntityIdStatistics _ s _ => s | _ => EmptyString end.

Definition period_of (e : EntityConfig) : string :=
  match e with EntityIdStatistics _ _ p => p | _ => EmptyString end.

(** ** [getEntityKey]: [None] stands for the thrown [Error]. *)
Definition getEntityKey (entity : EntityConfig) : option string :=
  if isEntityIdAttrConfig entity then
    Some (entity_of entity +:+ "::" +:+ attribute_of entity)
  else if isEntityIdStatisticsConfig entity then
    Some (entity_of entity +:+ "::statistics::" +:+ statistic_of entity
            +:+ "::" +:+ period_of entity)
  else if isEntityIdStateConfig entity then
    Some (entity_of entity)
  else None.

(** ** The cache *)

(** The two fields [ranges] and [histories] are plain objects used as maps:
    the finite maps below hold the entries they own, and the functions on
    them are written for the keys under which a read gives an own entry or
    [undefined]. *)
Record Cache : Type := mkCache {
  ranges : gmap string (list TimestampRange);
  histories : gmap string (list EntityState);
}.

(** A plain object also answers for the members of [Object.prototype]: at
    one of these names, [o[key]] is the inherited member, not [undefined],
    when [o] owns no entry under it.  [getHistory] returns what it reads,
    and is modelled at these names too.  [add] throws there, at [h.push],
    and what [update] does there is up to [subtractRanges], which is handed
    the member: their definitions below are those of the other keys. *)
Definition object_prototype : list string :=
  ["constructor"; "__defineGetter__"; "__defineSetter__"; "hasOwnProperty";
   "__lookupGetter__"; "__lookupSetter__"; "isPrototypeOf";
   "propertyIsEnumerable"; "toString"; "valueOf"; "__proto__";
   "toLocaleString"].

Definition inherited (key : string) : bool :=
  existsb (String.eqb key) object_prototype.

Definition empty_cache : Cache := {| ranges := ∅; histories := ∅ |}.

(** [mapValues(o, fn)], for an [fn] that ignores the key. *)
Definition mapValues {T S : Type} (o : gmap string T) (fn : T → S)
  : gmap string S := fn <$> o.

(** [Array.prototype.filter] with a callback that reads the index. *)
Fixpoint filteri_from {A : Type} (f : nat → A → bool) (i : nat) (l : list A)
  : list A :=
  match l with
  | [] => []
  | x :: l' =>
      if f i x then x :: filteri_from f (S i) l'
      else filteri_from f (S i) l'
  end.

Definition filteri {A : Type} (f : nat → A → bool) (l : list A) : list A :=
  filteri_from f 0 l.

(** [h.sort((a, b) => a.timestamp - b.timestamp)]: the sort of an array is
    stable, so it is the insertion sort that puts an element before the
    later elements of the same timestamp. *)
Fixpoint insert_by_timestamp (x : EntityState) (l : list EntityState)
  : list EntityState :=
  match l with
  | [] => [x]
  | y :: l' =>
      if timestamp x <=? timestamp y then x :: y :: l'
      else y :: insert_by_timestamp x l'
  end.

Definition sort_by_timestamp (l : list EntityState) : list EntityState :=
  foldr insert_by_timestamp [] l.

(** [h[i]?.timestamp] for a JavaScript index [i], which may be [-1]:
    [None] stands for [undefined]. *)
Definition timestamp_at (h : list EntityState) (i : Z) : option Z :=
  if i <? 0 then None else timestamp <$> h !! Z.to_nat i.

(** The three array passes of [add] on the observations of one series. *)
Definition merge_history (old states : list EntityState) : list EntityState :=
  let h := old ++ states in
  let h := sort_by_timestamp h in
  let h := filteri (λ i x, (i =? 0)%nat || negb (fake_boundary_datapoint x)) h in
  filteri (λ i _, negb (bool_decide
                          (timestamp_at h (Z.of_nat i - 1)
                           = timestamp_at h (Z.of_nat i)))) h.

(** [add(entity, states, range)]; [None] when [getEntityKey] throws. *)
Definition add (c : Cache) (entity : EntityConfig) (states : list EntityState)
  (range : TimestampRange) : option Cache :=
  entityKey ← getEntityKey entity;
  let h := merge_history (default [] (histories c !! entityKey)) states in
  let rs := default [] (ranges c !! entityKey) ++ [range] in
  Some {| ranges := <[entityKey := compactRanges rs]> (ranges c);
          histories := <[entityKey := h]> (histories c) |}.

(** [clearCache()]: both maps are replaced by empty ones. *)
Definition clearCache (c : Cache) : Cache := empty_cache.

(** [getHistory(entity)], that is [this.histories[key] || []]: the entry
    owned under the key (an array, empty or not, is truthy), and [[]] when
    the read gives [undefined].  [None] when no observation sequence is
    returned: [getEntityKey] throws, or nothing is owned under the key and
    the key names a member of [Object.prototype], in which case the read
    gives that member, which is truthy, and the member is what is
    returned. *)
Definition getHistory (c : Cache) (entity : EntityConfig)
  : option (list EntityState) :=
  key ← getEntityKey entity;
  match histories c !! key return option (list EntityState) with
  | Some h => Some h
  | None => if inherited key then None else Some []
  end.

(** The callback of [history.filter] in [removeOutsideRange], with the two
    captured variables [first] and [last] threaded through. *)
Fixpoint trim_filter (range : TimestampRange) (history : list EntityState)
  (first last : option EntityState)
  : list EntityState * option EntityState * option EntityState :=
  match history with
  | [] => ([], first, last)
  | datum :: history' =>
      if Num.leb (Fin (timestamp datum)) range.1 then
        trim_filter range history' (Some datum) last
      else if negb (bool_decide (is_Some last))
              && Num.leb range.2 (Fin (timestamp datum)) then
        trim_filter range history' first (Some datum)
      else
        let '(kept, first', last') := trim_filter range history' first last in
        (datum :: kept, first', last')
  end.

(** The callback of [mapValues(this.histories, ...)]: the filter, then
    [newHistory.unshift(first)] and [newHistory.push(last)] when set. *)
Definition trim_history (range : TimestampRange) (history : list EntityState)
  : list EntityState :=
  let '(newHistory, first, last) := trim_filter range history None None in
  let newHistory :=
    match first with Some d => d :: newHistory | None => newHistory end in
  match last with Some d => newHistory ++ [d] | None => newHistory end.

(** [removeOutsideRange(range)]: from the covered ranges of every series
    the two unbounded ranges around [range] are subtracted, and the
    observations of every series go through the filter above, [first] being
    put back in front and [last] at the back. *)
Definition removeOutsideRange (c : Cache) (range : TimestampRange) : Cache :=
  {| ranges :=
       mapValues (ranges c) (λ rs,
         subtractRanges rs [(NegInf, Num.pred range.1);
                            (Num.succ range.2, PosInf)]);
     histories := mapValues (histories c) (trim_history range) |}.

(** ** The fetch of one gap ([fetchSingleRange]) *)

(** The call made to the fetch adapter: [fetchStatistics] or [fetchStates],
    with the window [[start, end]] and, for the latter, the two flags. *)
Inductive AdapterCall : Type :=
| FetchStatistics (entity : EntityConfig) (window : TimestampRange)
| FetchStates (entity : EntityConfig) (window : TimestampRange)
    (significant_changes_only minimal_response : bool).

Definition call_window (call : AdapterCall) : TimestampRange :=
  match call with
  | FetchStatistics _ w => w
  | FetchStates _ w _ _ => w
  end.

(** [history[0].fake_boundary_datapoint = true] when [history.length]. *)
Definition mark_boundary (history : list EntityState) : list EntityState :=
  match history with
  | [] => []
  | d :: history' =>
      {| timestamp := timestamp d; state := state d;
         fake_boundary_datapoint := true |} :: history'
  end.

(** [fetchSingleRange] is an async function with one [await]: it is the call
    it makes to the adapter, at the clock reading [now], paired with what it
    returns once the adapter has answered with [history].  When the adapter
    fails instead, the function fails with it. *)
Definition fetchSingleRange (now : Z) (entity : EntityConfig)
  (r : TimestampRange) (significant_changes_only minimal_response : bool)
  : AdapterCall * (list EntityState → HistoryInRange) :=
  let '(startT, endT) := r in
  let start := Num.pred startT in
  let endT := Num.min endT (Fin now) in
  let end_ := endT in
  (if isEntityIdStatisticsConfig entity
   then FetchStatistics entity (start, end_)
   else FetchStates entity (start, end_)
          significant_changes_only minimal_response,
   λ history,
     {| range := (startT, endT); history := mark_boundary history |}).

(** ** The update coordinator ([update] and the [busy] chain)

    The scheduler of JavaScript runs one task at a time; an async function
    runs without interruption from one [await] to the next.  The state of the
    world between two tasks is the cache, the operation that holds [busy]
    with the state of each of its per-series async callbacks, the callbacks
    still running of operations that have already been rejected, and the
    operations chained on [busy] that have not started yet. *)

Record UpdateArgs : Type := mkUpdateArgs {
  u_range : TimestampRange;
  u_removeOutsideRange : bool;
  u_entities : list EntityConfig;
  u_significant_changes_only : bool;
  u_minimal_response : bool;
}.

(** An async callback of [entities.flatMap] suspended at its [await]: the
    gap being fetched, the clock reading when the fetch was issued, and the
    gaps the [for] loop has still to go through. *)
Record Task : Type := mkTask {
  t_op : nat;
  t_args : UpdateArgs;
  t_entity : EntityConfig;
  t_gap : TimestampRange;
  t_now : Z;
  t_rest : list TimestampRange;
}.

(** The promise of one callback: pending, fulfilled or rejected. *)
Inductive Slot : Type :=
| Running (t : Task)
| Done
| Rejected.

(** What an observer sees: an operation starts, a call to the adapter, a
    result merged by [add], the promise of an operation settles. *)
Inductive Action : Type :=
| Started (op : nat)
| Requested (op : nat) (call : AdapterCall)
| Merged (op : nat) (entity : EntityConfig) (r : TimestampRange)
| Settled (op : nat) (fulfilled : bool).

Record World : Type := mkWorld {
  cache : Cache;
  current : option (nat * list Slot);
  orphans : list Task;
  queue : list (nat * UpdateArgs);
  next_op : nat;
  trace : list Action;
}.

Definition init_world (c : Cache) : World :=
  {| cache := c; current := None; orphans := []; queue := [];
     next_op := 0; trace := [] |}.

(** [this.ranges[entityKey] ??= []]. *)
Definition ensure_ranges (entityKey : string) (c : Cache) : Cache :=
  match ranges c !! entityKey with
  | Some _ => c
  | None => {| ranges := <[entityKey := []]> (ranges c);
               histories := histories c |}
  end.

(** One turn of [for (const aRange of rangesToFetch)] up to its [await]. *)
Definition next_fetch (now : Z) (op : nat) (u : UpdateArgs)
  (entity : EntityConfig) (rangesToFetch : list TimestampRange)
  : Slot * list Action :=
  match rangesToFetch with
  | [] => (Done, [])
  | aRange :: rest =>
      (Running {| t_op := op; t_args := u; t_entity := entity;
                  t_gap := aRange; t_now := now; t_rest := rest |},
       [Requested op
          (fetchSingleRange now entity aRange
             (u_significant_changes_only u) (u_minimal_response u)).1])
  end.

(** The callback of [entities.flatMap] from its start to its first [await]. *)
Definition start_task (now : Z) (op : nat) (u : UpdateArgs) (c : Cache)
  (entity : EntityConfig) : Cache * Slot * list Action :=
  match getEntityKey entity with
  | None => (c, Rejected, [])
  | Some entityKey =>
      let c := ensure_ranges entityKey c in
      let rangesToFetch :=
        subtractRanges [u_range u] (default [] (ranges c !! entityKey)) in
      let '(slot, acts) := next_fetch now op u entity rangesToFetch in
      (c, slot, acts)
  end.

Fixpoint start_tasks (now : Z) (op : nat) (u : UpdateArgs) (c : Cache)
  (entities : list EntityConfig) : Cache * list Slot * list Action :=
  match entities with
  | [] => (c, [], [])
  | entity :: entities' =>
      let '(c1, slot, acts1) := start_task now op u c entity in
      let '(c2, slots, acts2) := start_tasks now op u c1 entities' in
      (c2, slot :: slots, acts1 ++ acts2)
  end.

(** The body of the function chained on [busy], up to [Promise.all]. *)
Definition start_update (now : Z) (op : nat) (u : UpdateArgs) (c : Cache)
  : Cache * list Slot * list Action :=
  let c := if u_removeOutsideRange u
           then removeOutsideRange c (u_range u) else c in
  start_tasks now op u c (u_entities u).

(** The callback resumed with the answer of the adapter: the rest
    of [fetchSingleRange], then [this.add], then the next turn of the loop. *)
Definition resume_task (now : Z) (t : Task) (answer : list EntityState)
  (c : Cache) : Cache * Slot * list Action :=
  let u := t_args t in
  let fetchedHistory :=
    (fetchSingleRange (t_now t) (t_entity t) (t_gap t)
       (u_significant_changes_only u) (u_minimal_response u)).2 answer in
  match add c (t_entity t) (history fetchedHistory)
          (range fetchedHistory) with
  | None => (c, Rejected, [])
  | Some c' =>
      let '(slot, acts) :=
        next_fetch now (t_op t) u (t_entity t) (t_rest t) in
      (c', slot, Merged (t_op t) (t_entity t) (range fetchedHistory) :: acts)
  end.

(** The [await] of the callback ends: with the answer of the adapter, or,
    when the adapter failed ([None]), with the rejection of the callback. *)
Definition settle_task (now : Z) (t : Task)
  (answer : option (list EntityState)) (c : Cache)
  : Cache * Slot * list Action :=
  match answer with
  | Some states => resume_task now t states c
  | None => (c, Rejected, [])
  end.

(** [Promise.all(promises)]: rejected as soon as one promise is rejected,
    fulfilled once all are fulfilled. *)
Definition is_rejected (s : Slot) : bool :=
  match s with Rejected => true | _ => false end.

Definition is_done (s : Slot) : bool :=
  match s with Done => true | _ => false end.

Definition running_task (s : Slot) : option Task :=
  match s with Running t => Some t | _ => None end.

Definition promise_all (slots : list Slot) : option bool :=
  if existsb is_rejected slots then Some false
  else if forallb is_done slots then Some true
  else None.

(** The chain [busy.catch(() => {}).then(...)]: once the operation that holds
    [busy] has settled, either way, the next one starts, and so on until an
    operation has to wait for the adapter. *)
Fixpoint run_queue (now : Z) (c : Cache) (orph : list Task)
  (tr : list Action) (next : nat) (q : list (nat * UpdateArgs)) : World :=
  match q with
  | [] => {| cache := c; current := None; orphans := orph; queue := [];
             next_op := next; trace := tr |}
  | (op, u) :: q' =>
      let '(c', slots, acts) := start_update now op u c in
      let tr' := tr ++ Started op :: acts in
      match promise_all slots with
      | Some ok =>
          run_queue now c' (orph ++ omap running_task slots)
            (tr' ++ [Settled op ok]) next q'
      | None =>
          {| cache := c'; current := Some (op, slots); orphans := orph;
             queue := q'; next_op := next; trace := tr' |}
      end
  end.

(** [update(range, removeOutsideRange, entities, hass, ...)] called at the
    clock reading [now]. *)
Definition update (w : World) (u : UpdateArgs) (now : Z) : World :=
  let op := next_op w in
  match current w with
  | Some _ =>
      {| cache := cache w; current := current w; orphans := orphans w;
         queue := queue w ++ [(op, u)]; next_op := S op; trace := trace w |}
  | None =>
      run_queue now (cache w) (orphans w) (trace w) (S op)
        (queue w ++ [(op, u)])
  end.

(** Which suspended callback an answer of the adapter is for. *)
Inductive TaskRef : Type :=
| OfCurrent (i : nat)
| OfOrphan (i : nat).

(** The adapter answers the pending fetch of a callback, with a history or
    with a failure ([None]). *)
Definition respond (w : World) (ref : TaskRef)
  (answer : option (list EntityState)) (now : Z) : World :=
  match ref with
  | OfCurrent i =>
      match current w with
      | Some (op, slots) =>
          match slots !! i with
          | Some (Running t) =>
              let '(c', slot, acts) := settle_task now t answer (cache w) in
              let slots' := <[i := slot]> slots in
              let tr' := trace w ++ acts in
              match promise_all slots' with
              | Some ok =>
                  run_queue now c' (orphans w ++ omap running_task slots')
                    (tr' ++ [Settled op ok]) (next_op w) (queue w)
              | None =>
                  {| cache := c'; current := Some (op, slots');
                     orphans := orphans w; queue := queue w;
                     next_op := next_op w; trace := tr' |}
              end
          | _ => w
          end
      | None => w
      end
  | OfOrphan i =>
      match orphans w !! i with
      | Some t =>
          let '(c', slot, acts) := settle_task now t answer (cache w) in
          {| cache := c'; current := current w;
             orphans := match slot with
                        | Running t' => <[i := t']> (orphans w)
                        | _ => delete i (orphans w)
                        end;
             queue := queue w; next_op := next_op w;
             trace := trace w ++ acts |}
      | None => w
      end
  end.

(** What can happen to a cache: calls of its methods by the host and answers
    of the adapter. *)
Inductive Event : Type :=
| CallUpdate (u : UpdateArgs) (now : Z)
| Answer (ref : TaskRef) (answer : option (list EntityState)) (now : Z)
| CallAdd (entity : EntityConfig) (states : list EntityState)
    (r : TimestampRange)
| CallRemoveOutsideRange (r : TimestampRange)
| CallClearCache.

Definition with_cache (w : World) (c : Cache) : World :=
  {| cache := c; current := current w; orphans := orphans w;
     queue := queue w; next_op := next_op w; trace := trace w |}.

Definition step (w : World) (ev : Event) : World :=
  match ev with
  | CallUpdate u now => update w u now
  | Answer ref answer now => respond w ref answer now
  | CallAdd entity states r =>
      match add (cache w) entity states r with
      | Some c => with_cache w c
      | None => w
      end
  | CallRemoveOutsideRange r => with_cache w (removeOutsideRange (cache w) r)
  | CallClearCache => with_cache w (clearCache (cache w))
  end.

Definition run (w : World) (evs : list Event) : World := foldl step w evs.

(** ** Predicates of the statements *)

(** The observations of a series: strictly ascending timestamps, hence no
    timestamp twice, and a boundary point at index 0 only. *)
Definition ascending (h : list EntityState) : Prop :=
  ∀ (i j : nat) (x y : EntityState),
    h !! i = Some x → h !! j = Some y → (i < j)%nat →
    timestamp x < timestamp y.

Definition boundary_only_first (h : list EntityState) : Prop :=
  ∀ (i : nat) (x : EntityState),
    h !! i = Some x → fake_boundary_datapoint x = true → i = 0%nat.

Definition history_ok (h : list EntityState) : Prop :=
  ascending h ∧ NoDup (timestamp <$> h) ∧ boundary_only_first h.

(** A sequence of calls of [add]; a call that throws leaves the cache as it
    was. *)
Definition AddCall : Type := EntityConfig * list EntityState * TimestampRange.

Definition add_call (c : Cache) (call : AddCall) : Cache :=
  default c (add c call.1.1 call.1.2 call.2).

Definition add_all (c : Cache) (calls : list AddCall) : Cache :=
  foldl add_call c calls.

(** The order on observations and the recursive reading of the last pass of
    [add], used in the proofs. *)
Definition ts_le (x y : EntityState) : Prop := timestamp x <= timestamp y.
Definition ts_lt (x y : EntityState) : Prop := timestamp x < timestamp y.

Fixpoint dedup_after (p : Z) (l : list EntityState) : list EntityState :=
  match l with
  | [] => []
  | x :: l' =>
      if bool_decide (p = timestamp x) then dedup_after (timestamp x) l'
      else x :: dedup_after (timestamp x) l'
  end.

(** Lists of ranges: [before] is "ends before the next one starts",
    [apart] is "with at least one instant in between". *)
Definition before (a b : TimestampRange) : Prop := a.2 <! b.1.
Definition apart (a b : TimestampRange) : Prop := Num.succ a.2 <! b.1.

Definition disjoint_sorted (rs : list TimestampRange) : Prop :=
  Forall ordered rs ∧ StronglySorted before rs.

Definition separated_sorted (rs : list TimestampRange) : Prop :=
  Forall ordered rs ∧ StronglySorted apart rs.

(** An instant of the targets that no covered range contains. *)
Definition uncovered (targets covered : list TimestampRange) (x : Z) : Prop :=
  in_ranges x targets ∧ ¬ in_ranges x covered.

(** The covered ranges of a series, [[]] for an unknown one. *)
Definition covered_of (c : Cache) (key : string) : list TimestampRange :=
  default [] (ranges c !! key).

(** Sample data of the examples. *)
Definition obs (t : Z) : EntityState :=
  {| timestamp := t; state := "on"; fake_boundary_datapoint := false |}.

Definition sensor_a : EntityConfig := EntityIdState "sensor.a".
Definition sensor_b : EntityConfig := EntityIdState "sensor.b".

(** Sorted by start, as [compactRanges] sorts. *)
Definition by_start (a b : TimestampRange) : Prop := a.1 <=! b.1.

(** The preconditions of the walk: the covered ranges it goes through are
    disjoint and in order, start at or before the end of the target, and end
    at or after the cursor. *)
Definition walkable (cursor tend : num) (cs : list TimestampRange) : Prop :=
  disjoint_sorted cs
  ∧ Forall (λ c, c.1 <=! tend) cs
  ∧ Forall (λ c, cursor <=! c.2) cs.

(** The request of a suspended callback as it stands in the trace, and the
    range its fetch will report as covered. *)
Definition task_request (t : Task) : Action :=
  Requested (t_op t)
    (fetchSingleRange (t_now t) (t_entity t) (t_gap t)
       (u_significant_changes_only (t_args t))
       (u_minimal_response (t_args t))).1.

Definition recorded (t : Task) : TimestampRange :=
  ((t_gap t).1, Num.min (t_gap t).2 (Fin (t_now t))).

(** The callbacks that are suspended in a state of the world. *)
Definition live_tasks (w : World) : list Task :=
  match current w with
  | Some (_, slots) => omap running_task slots
  | None => []
  end ++ orphans w.

(** Every fetch was issued for a gap that starts at or before the clock
    reading of the fetch: the window requested, one unit wider on the left
    and cut at the clock reading on the right, starts before it ends. *)
Definition well_timed (tr : list Action) : Prop :=
  ∀ op call, Requested op call ∈ tr →
    (call_window call).1 <! (call_window call).2.

Definition direct_add_ordered (ev : Event) : Prop :=
  match ev with
  | CallAdd _ _ r => ordered r
  | _ => True
  end.

Definition ranges_ordered (c : Cache) : Prop :=
  ∀ key rs, ranges c !! key = Some rs → Forall ordered rs.

Definition tasks_ok (tr : list Action) (ts : list Task) : Prop :=
  Forall (λ t, task_request t ∈ tr ∧ Forall ordered (t_rest t)) ts.

Definition world_ok (w : World) : Prop :=
  ranges_ordered (cache w) ∧ tasks_ok (trace w) (live_tasks w).








(** The observations of a sequence at or before the start of a range, in
    order, and those after it; the left anchor a trim keeps is the last of
    the former. *)
Definition up_to_start (r : TimestampRange) (h : list EntityState)
  : list EntityState :=
  filter (λ x, Num.leb (Fin (timestamp x)) r.1 = true) h.

Definition after_start (r : TimestampRange) (h : list EntityState)
  : list EntityState :=
  filter (λ x, Num.leb (Fin (timestamp x)) r.1 = false) h.

Definition left_anchor (r : TimestampRange) (h : list EntityState)
  : list EntityState :=
  option_list (last (up_to_start r h)).

(** No observation but the last one is at or after the end of the range. *)
Definition only_last_at_end (r : TimestampRange) (h : list EntityState)
  : Prop :=
  ∀ (i : nat) (x : EntityState),
    h !! i = Some x → Num.leb r.2 (Fin (timestamp x)) = true →
    S i = length h.

(** The calls of [add] that are for the series of a key. *)
Definition calls_for (key : string) (calls : list AddCall) : list AddCall :=
  filter (λ call : AddCall, getEntityKey call.1.1 = Some key) calls.

(** The clock reading an event comes with, if any. *)
Definition event_clock (ev : Event) : option Z :=
  match ev with
  | CallUpdate _ now => Some now
  | Answer _ _ now => Some now
  | _ => None
  end.

(** A call to the adapter whose window ends at or before [T]. *)
Definition ends_by (T : Z) (a : Action) : Prop :=
  match a with
  | Requested _ call => (call_window call).2 <=! Fin T
  | _ => True
  end.

(** An event that does not trim: not [removeOutsideRange], and not an
    [update] that asks for it. *)
Definition no_trim (ev : Event) : Prop :=
  match ev with
  | CallUpdate u _ => u_removeOutsideRange u = false
  | CallRemoveOutsideRange _ => False
  | _ => True
  end.

Definition histories_ok (c : Cache) : Prop :=
  ∀ key, history_ok (default [] (histories c !! key)).

(** The operations that have started, in the order of their start. *)
Definition started_op (a : Action) : option nat :=
  match a with Started op => Some op | _ => None end.

Definition started_ops (tr : list Action) : list nat := omap started_op tr.

Ltac range_lia :=
  intros;
  repeat match goal with
         | r : TimestampRange |- _ => destruct r as [? ?]
         | r : (num * num)%type |- _ => destruct r as [? ?]
         end;
  unfold in_range, ordered, before, apart, finite, intersects in *;
  simpl in *; num_lia;
  intuition (try discriminate; try congruence; try lia).

(** * Properties *)

(** ** Scenarios of the range arithmetic *)

Example scenario_A :
  compactRanges [zr 1 5; zr 3 8; zr 10 12] = [zr 1 8; zr 10 12].
Proof. reflexivity. Qed.

Example scenario_B :
  subtractRanges [zr 0 100] [zr 10 20; zr 30 40]
  = [zr 0 9; zr 21 29; zr 41 100].
Proof. reflexivity. Qed.

(** Targets given out of order and overlapping: the gaps come out sorted
    and maximal all the same. *)
Example subtractRanges_any_order :
  subtractRanges [zr 50 100; zr 0 60] [zr 10 20; zr 30 40]
  = [zr 0 9; zr 21 29; zr 41 100]
  ∧ subtractRanges [zr 50 60; zr 0 10] [] = [zr 0 10; zr 50 60].
Proof. by split. Qed.

(** ** The passes of [add] over the observations *)

Lemma insert_by_timestamp_elem x y l :
  y ∈ insert_by_timestamp x l ↔ y = x ∨ y ∈ l.
Proof.
  induction l as [|z l IH]; simpl.
  - rewrite elem_of_cons, elem_of_nil. tauto.
  - destruct (timestamp x <=? timestamp z).
    + rewrite !elem_of_cons. tauto.
    + rewrite !elem_of_cons, IH. tauto.
Qed.

Lemma insert_by_timestamp_sorted x l :
  StronglySorted ts_le l → StronglySorted ts_le (insert_by_timestamp x l).
Proof.
  induction 1 as [|z l Hl IH Hz]; simpl.
  - repeat constructor.
  - destruct (Z.leb_spec (timestamp x) (timestamp z)).
    + constructor; [by constructor|].
      constructor; [done|].
      eapply Forall_impl; [exact Hz|]. unfold ts_le. intros; lia.
    + constructor; [done|].
      apply Forall_forall. intros y Hy.
      apply insert_by_timestamp_elem in Hy as [->|Hy].
      * unfold ts_le; lia.
      * rewrite Forall_forall in Hz. by apply Hz.
Qed.

Lemma sort_by_timestamp_sorted l : StronglySorted ts_le (sort_by_timestamp l).
Proof.
  induction l; simpl; [constructor|]. by apply insert_by_timestamp_sorted.
Qed.

Lemma filteri_from_sublist {A} (f : nat → A → bool) i l :
  sublist (filteri_from f i l) l.
Proof.
  revert i. induction l as [|x l IH]; intros i; simpl; [constructor|].
  destruct (f i x); [by apply sublist_skip|by apply sublist_cons].
Qed.

Lemma sublist_sorted {A} (R : relation A) l1 l2 :
  sublist l1 l2 → StronglySorted R l2 → StronglySorted R l1.
Proof.
  induction 1 as [|x l1 l2 Hsub IH|x l1 l2 Hsub IH]; intros Hs.
  - constructor.
  - apply StronglySorted_cons in Hs as [Hx Hs].
    apply StronglySorted_cons. split; [|by apply IH].
    apply Forall_forall. intros y Hy. rewrite Forall_forall in Hx.
    apply Hx. by eapply elem_of_sublist.
  - apply StronglySorted_cons in Hs as [_ Hs]. by apply IH.
Qed.

(** The first filter keeps index 0 and, after it, what is not flagged. *)
Lemma filteri_from_unflagged i l :
  filteri_from (λ i x, (i =? 0)%nat || negb (fake_boundary_datapoint x))
    (S i) l
  = filter (λ y, fake_boundary_datapoint y = false) l.
Proof.
  revert i. induction l as [|x l IH]; intros i; [done|].
  cbn [filteri_from]. rewrite IH, filter_cons.
  change (S i =? 0)%nat with false. cbn [orb].
  by destruct (fake_boundary_datapoint x).
Qed.

Lemma first_pass_cons x l :
  filteri (λ i x, (i =? 0)%nat || negb (fake_boundary_datapoint x)) (x :: l)
  = x :: filter (λ y, fake_boundary_datapoint y = false) l.
Proof. unfold filteri. cbn. by rewrite filteri_from_unflagged. Qed.

(** The second filter compares each element with its predecessor in the
    array being filtered. *)
Lemma timestamp_at_nat h (i : nat) :
  timestamp_at h (Z.of_nat i) = timestamp <$> h !! i.
Proof.
  unfold timestamp_at. destruct (Z.ltb_spec (Z.of_nat i) 0); [lia|].
  by rewrite Nat2Z.id.
Qed.

Lemma filteri_from_dedup pre y l :
  filteri_from
    (λ i _, negb (bool_decide
                    (timestamp_at (pre ++ y :: l) (Z.of_nat i - 1)
                     = timestamp_at (pre ++ y :: l) (Z.of_nat i))))
    (S (length pre)) l
  = dedup_after (timestamp y) l.
Proof.
  revert pre y. induction l as [|x l IH]; intros pre y; [done|].
  cbn [filteri_from dedup_after].
  replace (Z.of_nat (S (length pre)) - 1) with (Z.of_nat (length pre)) by lia.
  rewrite !timestamp_at_nat.
  rewrite list_lookup_middle by done.
  replace (pre ++ y :: x :: l) with ((pre ++ [y]) ++ x :: l)
    by (by rewrite <- app_assoc).
  rewrite (list_lookup_middle (pre ++ [y]) l x (S (length pre)))
    by (rewrite length_app; simpl; lia).
  specialize (IH (pre ++ [y]) x).
  rewrite length_app in IH. simpl in IH.
  replace (length pre + 1)%nat with (S (length pre)) in IH by lia.
  rewrite IH. simpl.
  destruct (decide (timestamp y = timestamp x)) as [Heq|Hne].
  - rewrite !bool_decide_eq_true_2; [done|done|by rewrite Heq].
  - rewrite !bool_decide_eq_false_2; [done|done|congruence].
Qed.

Lemma last_pass_cons x l :
  filteri
    (λ i _, negb (bool_decide
                    (timestamp_at (x :: l) (Z.of_nat i - 1)
                     = timestamp_at (x :: l) (Z.of_nat i)))) (x :: l)
  = x :: dedup_after (timestamp x) l.
Proof.
  unfold filteri. cbn [filteri_from].
  pose proof (filteri_from_dedup [] x l) as H. simpl in H. rewrite H.
  by rewrite bool_decide_eq_false_2.
Qed.

Lemma dedup_after_sublist p l : sublist (dedup_after p l) l.
Proof.
  revert p. induction l as [|x l IH]; intros p; simpl; [constructor|].
  case_bool_decide; [by apply sublist_cons|by apply sublist_skip].
Qed.

Lemma dedup_after_sorted l p :
  Forall (λ y, p <= timestamp y) l → StronglySorted ts_le l →
  Forall (λ y, p < timestamp y) (dedup_after p l)
  ∧ StronglySorted ts_lt (dedup_after p l).
Proof.
  revert p. induction l as [|x l IH]; intros p Hp Hs; simpl.
  - split; constructor.
  - apply Forall_cons in Hp as [Hx Hp].
    apply StronglySorted_cons in Hs as [Hxl Hs].
    destruct (IH (timestamp x) Hxl Hs) as [Hgt Hsorted].
    case_bool_decide as Heq.
    + subst p. by split.
    + split.
      * constructor; [lia|].
        eapply Forall_impl; [exact Hgt|]. simpl. intros; lia.
      * apply StronglySorted_cons. by split.
Qed.

Lemma sorted_lt_ascending h : StronglySorted ts_lt h → ascending h.
Proof.
  induction 1 as [|x l Hl IH Hx]; intros i j a b Hi Hj Hij.
  - by rewrite lookup_nil in Hi.
  - destruct j as [|j]; [lia|]. simpl in Hj.
    destruct i as [|i]; simpl in Hi.
    + injection Hi as ->. rewrite Forall_forall in Hx.
      apply Hx. by eapply list_elem_of_lookup_2.
    + eapply IH; eauto. lia.
Qed.

Lemma ascending_NoDup h : ascending h → NoDup (timestamp <$> h).
Proof.
  intros Hasc. apply NoDup_alt. intros i j t Hi Hj.
  rewrite list_lookup_fmap in Hi, Hj.
  destruct (h !! i) as [x|] eqn:Hx; [|done].
  destruct (h !! j) as [y|] eqn:Hy; [|done].
  simpl in Hi, Hj. injection Hi as <-. injection Hj as Hj.
  destruct (Nat.lt_trichotomy i j) as [Hlt|[->|Hlt]]; [|done|].
  - pose proof (Hasc _ _ _ _ Hx Hy Hlt). lia.
  - pose proof (Hasc _ _ _ _ Hy Hx Hlt). lia.
Qed.

Lemma history_ok_nil : history_ok [].
Proof.
  split; [|split].
  - intros i j x y Hi. by rewrite lookup_nil in Hi.
  - constructor.
  - intros i x Hi. by rewrite lookup_nil in Hi.
Qed.

(** Whatever the series held and whatever is added, the three passes leave
    a well-formed sequence. *)
Lemma merge_history_ok old states : history_ok (merge_history old states).
Proof.
  unfold merge_history.
  pose proof (sort_by_timestamp_sorted (old ++ states)) as Hsorted.
  destruct (sort_by_timestamp (old ++ states)) as [|x l].
  { change (history_ok []). apply history_ok_nil. }
  rewrite first_pass_cons, last_pass_cons.
  set (l1 := filter (λ y, fake_boundary_datapoint y = false) l).
  assert (StronglySorted ts_le (x :: l1)) as Hs1.
  { eapply sublist_sorted; [|exact Hsorted].
    apply sublist_skip, sublist_filter. }
  apply StronglySorted_cons in Hs1 as [Hx1 Hs1].
  destruct (dedup_after_sorted l1 (timestamp x) Hx1 Hs1) as [Hgt Hlt].
  assert (ascending (x :: dedup_after (timestamp x) l1)) as Hasc.
  { apply sorted_lt_ascending, StronglySorted_cons. by split. }
  split; [done|]. split; [by apply ascending_NoDup|].
  intros i y Hi Hflag. destruct i as [|i]; [done|]. simpl in Hi.
  apply list_elem_of_lookup_2 in Hi.
  eapply elem_of_sublist in Hi; [|apply dedup_after_sublist].
  apply list_elem_of_filter in Hi as [Hno _]. congruence.
Qed.

Lemma add_histories_ok c entity states r c' :
  (∀ key, history_ok (default [] (histories c !! key))) →
  add c entity states r = Some c' →
  ∀ key, history_ok (default [] (histories c' !! key)).
Proof.
  intros Hok Hadd key. unfold add in Hadd.
  destruct (getEntityKey entity) as [k|]; [|done]. simpl in Hadd.
  injection Hadd as <-. simpl.
  destruct (decide (k = key)) as [->|Hne].
  - rewrite lookup_insert_eq. simpl. apply merge_history_ok.
  - rewrite lookup_insert_ne by done. apply Hok.
Qed.

(** C1. After any sequence of calls of [add] on an empty cache, the
    observations of every series are strictly ascending by timestamp, no
    timestamp occurs twice, and only the observation at index 0 may be
    flagged as a boundary point. *)
Theorem add_keeps_history_ok (calls : list AddCall) (key : string) :
  history_ok (default [] (histories (add_all empty_cache calls) !! key)).
Proof.
  unfold add_all.
  assert (∀ k, history_ok (default [] (histories empty_cache !! k))) as Hinit.
  { intros k. simpl. rewrite lookup_empty. apply history_ok_nil. }
  revert Hinit key. generalize empty_cache.
  induction calls as [|call calls IH]; intros c Hc key; simpl; [apply Hc|].
  apply IH. intros k. unfold add_call.
  destruct (add c call.1.1 call.1.2 call.2) as [c'|] eqn:Hadd; simpl.
  - by eapply add_histories_ok.
  - apply Hc.
Qed.

(** ** The fetch of one gap *)

(** C2. For the gap [[startT, endT]] fetched at the clock reading [now],
    [fetchSingleRange] calls the adapter (the statistics one or the states
    one, by the kind of the descriptor) over the window
    [[startT - 1, min(endT, now)]]; once the adapter has answered, the first
    element of a non-empty answer is flagged as a boundary point, nothing
    else of the answer changes, and the range reported as covered is
    [[startT, min(endT, now)]], which holds no instant before [startT]. *)
Theorem fetchSingleRange_expands_window
  (now : Z) (entity : EntityConfig) (startT endT : num)
  (significant_changes_only minimal_response : bool) :
  let fetch :=
    fetchSingleRange now entity (startT, endT)
      significant_changes_only minimal_response in
  call_window fetch.1 = (Num.pred startT, Num.min endT (Fin now))
  ∧ fetch.1
    = (if isEntityIdStatisticsConfig entity
       then FetchStatistics entity (Num.pred startT, Num.min endT (Fin now))
       else FetchStates entity (Num.pred startT, Num.min endT (Fin now))
              significant_changes_only minimal_response)
  ∧ ∀ answer : list EntityState,
      range (fetch.2 answer) = (startT, Num.min endT (Fin now))
      ∧ match answer with
        | [] => history (fetch.2 answer) = []
        | d :: answer' =>
            history (fetch.2 answer)
            = {| timestamp := timestamp d; state := state d;
                 fake_boundary_datapoint := true |} :: answer'
        end
      ∧ ∀ x : Z,
          ¬ (in_range x (range (fetch.2 answer)) ∧ Fin x <! startT).
Proof.
  cbn. split; [by destruct (isEntityIdStatisticsConfig entity)|].
  split; [done|]. intros answer. split; [done|].
  split; [by destruct answer|].
  intros x [[Hlo _] Hlt]. cbn in Hlo. revert Hlo Hlt. clear. num_lia.
Qed.

(** ** Trimming *)

(** Once [last] is set, the filter callback keeps every observation that
    is after the start of the range, whether or not it is beyond its end. *)
Lemma trim_filter_after_last range h first d :
  (trim_filter range h first (Some d)).1.1
  = filter (λ x, Num.leb (Fin (timestamp x)) range.1 = false) h.
Proof.
  revert first. induction h as [|x h IH]; intros first; [done|].
  cbn [trim_filter]. rewrite filter_cons.
  destruct (Num.leb (Fin (timestamp x)) range.1) eqn:Hle.
  - rewrite IH. by rewrite decide_False.
  - rewrite decide_True by done. cbn.
    specialize (IH first).
    destruct (trim_filter range h first (Some d)) as [[kept f] l].
    simpl in *. by rewrite IH.
Qed.

(** C3, on the example of the claim: with observations at
    [5, 60, 100, 160, 300] and the range [[50, 150]], [removeOutsideRange]
    leaves [5, 60, 100, 300, 160]: once [last] is set to the observation
    at 160, the test [!last] fails for 300, which falls through to
    [return true] and is kept, and [last] is pushed after it. *)
Theorem removeOutsideRange_keeps_points_after_last :
  let c := {| ranges := {[ "sensor.a" := [zr 0 400] ]};
              histories :=
                {[ "sensor.a" := obs <$> [5; 60; 100; 160; 300] ]} |} in
  getHistory (removeOutsideRange c (zr 50 150)) sensor_a
  = Some (obs <$> [5; 60; 100; 300; 160])
  ∧ getHistory (removeOutsideRange c (zr 50 150)) sensor_a
    ≠ Some (obs <$> [5; 60; 100; 160]).
Proof. split; [by vm_compute|]. vm_compute. discriminate. Qed.

(** ** Reading *)

(** C8, counterexample: the descriptor that matches none of the three
    shapes makes [getEntityKey], and with it [getHistory], throw. *)
Lemma getHistory_malformed_fails :
  getEntityKey (EntityMalformed "{}") = None
  ∧ getHistory empty_cache (EntityMalformed "{}") = None.
Proof. by split. Qed.

(** With nothing held under it, a key that names a member of
    [Object.prototype] reads as that member: for the plain descriptor of
    the entity [constructor], [getHistory] on the empty cache returns the
    function [Object], not the empty sequence. *)
Lemma getHistory_inherited_member :
  getEntityKey (EntityIdState "constructor") = Some "constructor"
  ∧ inherited "constructor" = true
  ∧ getHistory empty_cache (EntityIdState "constructor") = None.
Proof. by vm_compute. Qed.

(** C8, amended. For every descriptor of one of the three recognised shapes
    and every cache: when the cache holds observations under the key of the
    descriptor, [getHistory] returns them; when it holds none and the key
    is not the name of a member of [Object.prototype], [getHistory] returns
    the empty sequence; it fails in neither case.  When the cache holds
    none and the key is such a name, the inherited member is what is read
    and returned, and no observation sequence is. *)
Theorem getHistory_wellformed (c : Cache) (entity : EntityConfig) :
  isEntityIdAttrConfig entity || isEntityIdStatisticsConfig entity
    || isEntityIdStateConfig entity = true →
  ∃ key : string,
    getEntityKey entity = Some key
    ∧ (∀ h, histories c !! key = Some h → getHistory c entity = Some h)
    ∧ (histories c !! key = None → inherited key = false →
       getHistory c entity = Some [])
    ∧ (histories c !! key = None → inherited key = true →
       getHistory c entity = None).
Proof.
  intros Hshape. unfold getHistory.
  destruct entity; try discriminate; cbn; eexists; (split; [done|]);
    (split; [by intros h ->|]); split; by intros -> ->.
Qed.

Lemma getHistory_wellformed_witness :
  getHistory
    (add_call empty_cache
       (EntityIdAttr "climate.hall" "temperature", obs <$> [100; 120],
        zr 100 200))
    (EntityIdAttr "climate.hall" "temperature")
  = Some (obs <$> [100; 120])
  ∧ getHistory
      (add_call empty_cache
         (EntityIdAttr "climate.hall" "temperature", obs <$> [100; 120],
          zr 100 200))
      (EntityIdStatistics "sensor.power" "mean" "hour")
    = Some [].
Proof.
  split.
  - destruct (getHistory_wellformed
                (add_call empty_cache
                   (EntityIdAttr "climate.hall" "temperature",
                    obs <$> [100; 120], zr 100 200))
                (EntityIdAttr "climate.hall" "temperature") eq_refl)
      as (key & Hkey & Hheld & _).
    injection Hkey as <-. apply Hheld. reflexivity.
  - destruct (getHistory_wellformed
                (add_call empty_cache
                   (EntityIdAttr "climate.hall" "temperature",
                    obs <$> [100; 120], zr 100 200))
                (EntityIdStatistics "sensor.power" "mean" "hour") eq_refl)
      as (key & Hkey & _ & Hnone & _).
    injection Hkey as <-. apply Hnone; reflexivity.
Defined.

(** ** The coordinator on a failing fetch *)

Lemma promise_all_rejected slots i s :
  slots !! i = Some s → promise_all (<[i:=Rejected]> slots) = Some false.
Proof.
  intros Hi. unfold promise_all.
  assert (existsb is_rejected (<[i:=Rejected]> slots) = true) as ->; [|done].
  revert i Hi. induction slots as [|s' slots IH]; intros [|i] Hi; try done.
  simpl in *. rewrite (IH i Hi). by destruct (is_rejected s').
Qed.

Lemma run_queue_trace q now c orph tr next a :
  a ∈ tr → a ∈ trace (run_queue now c orph tr next q).
Proof.
  revert c orph tr. induction q as [|[op u] q IH]; intros c orph tr Ha; simpl.
  - done.
  - destruct (start_update now op u c) as [[c' slots] acts].
    destruct (promise_all slots) as [ok|]; simpl.
    + apply IH. rewrite !elem_of_app. auto.
    + rewrite elem_of_app. auto.
Qed.

Lemma run_queue_orphans q now c orph tr next t :
  t ∈ orph → t ∈ orphans (run_queue now c orph tr next q).
Proof.
  revert c orph tr. induction q as [|[op u] q IH]; intros c orph tr Ht; simpl.
  - done.
  - destruct (start_update now op u c) as [[c' slots] acts].
    destruct (promise_all slots) as [ok|]; simpl; [|done].
    apply IH. rewrite elem_of_app. by left.
Qed.

(** The defect behind C4 and C5, in general: when the adapter fails one
    fetch of the operation that holds [busy], the operation settles at once,
    rejected, and every other fetch of it that is still pending is left
    running on its own. *)
Lemma failed_fetch_releases_busy w op slots i t now :
  current w = Some (op, slots) → slots !! i = Some (Running t) →
  Settled op false ∈ trace (respond w (OfCurrent i) None now)
  ∧ ∀ j t', j ≠ i → slots !! j = Some (Running t') →
      t' ∈ orphans (respond w (OfCurrent i) None now).
Proof.
  intros Hcur Hi. unfold respond. rewrite Hcur, Hi. simpl.
  rewrite (promise_all_rejected slots i _ Hi). split.
  - apply run_queue_trace. rewrite !elem_of_app, list_elem_of_singleton. auto.
  - intros j t' Hj Ht'. apply run_queue_orphans.
    rewrite elem_of_app. right. apply list_elem_of_omap.
    exists (Running t'). split; [|done].
    apply list_elem_of_lookup. exists j. by rewrite list_lookup_insert_ne.
Qed.

(** C4, on a failing input: an update over two series, the fetch of the
    first of which fails.  [Promise.all] rejects at once, so the operation
    settles while the fetch of the second series is still pending; that
    fetch is answered, and its result merged, after the operation has
    settled. *)
Theorem update_settles_before_sibling_fetch :
  let u := {| u_range := zr 100 200; u_removeOutsideRange := false;
              u_entities := [sensor_a; sensor_b];
              u_significant_changes_only := true;
              u_minimal_response := true |} in
  let w := run (init_world empty_cache)
             [CallUpdate u 1000; Answer (OfCurrent 0) None 1001] in
  let w' := step w (Answer (OfOrphan 0) (Some [obs 99; obs 120]) 1002) in
  trace w
  = [Started 0;
     Requested 0 (FetchStates sensor_a (zr 99 200) true true);
     Requested 0 (FetchStates sensor_b (zr 99 200) true true);
     Settled 0 false]
  ∧ current w = None
  ∧ (t_entity <$> orphans w) = [sensor_b]
  ∧ trace w' = trace w ++ [Merged 0 sensor_b (zr 100 200)]
  ∧ (timestamp <$> default [] (getHistory (cache w') sensor_b)) = [99; 120].
Proof. by vm_compute. Qed.

(** C5, on a failing input: two updates are called in a row, the first over
    two series, the second over the second of them; the fetch of the first
    series fails.  The second operation starts, as it should, but it starts
    while the first one is still fetching the second series: its gap
    computation finds nothing covered and requests the same window again,
    and the result of the first operation is merged after the second has
    started. *)
Theorem update_overlaps_after_failure :
  let u1 := {| u_range := zr 100 200; u_removeOutsideRange := false;
               u_entities := [sensor_a; sensor_b];
               u_significant_changes_only := true;
               u_minimal_response := true |} in
  let u2 := {| u_range := zr 100 200; u_removeOutsideRange := false;
               u_entities := [sensor_b];
               u_significant_changes_only := true;
               u_minimal_response := true |} in
  let w := run (init_world empty_cache)
             [CallUpdate u1 1000; CallUpdate u2 1000;
              Answer (OfCurrent 0) None 1001;
              Answer (OfOrphan 0) (Some [obs 99; obs 120]) 1002] in
  trace w
  = [Started 0;
     Requested 0 (FetchStates sensor_a (zr 99 200) true true);
     Requested 0 (FetchStates sensor_b (zr 99 200) true true);
     Settled 0 false;
     Started 1;
     Requested 1 (FetchStates sensor_b (zr 99 200) true true);
     Merged 0 sensor_b (zr 100 200)]
  ∧ (fst <$> current w) = Some 1%nat.
Proof. by vm_compute. Qed.

(** ** Range arithmetic: compaction *)

Lemma in_ranges_nil x : ¬ in_ranges x [].
Proof. unfold in_ranges. rewrite Exists_nil. tauto. Qed.

Lemma in_ranges_cons x r rs :
  in_ranges x (r :: rs) ↔ in_range x r ∨ in_ranges x rs.
Proof. unfold in_ranges. by rewrite Exists_cons. Qed.

Lemma in_ranges_singleton x r : in_ranges x [r] ↔ in_range x r.
Proof. rewrite in_ranges_cons. pose proof (in_ranges_nil x). tauto. Qed.

Lemma in_ranges_app x rs1 rs2 :
  in_ranges x (rs1 ++ rs2) ↔ in_ranges x rs1 ∨ in_ranges x rs2.
Proof. unfold in_ranges. by rewrite Exists_app. Qed.

Lemma in_ranges_elem x rs :
  in_ranges x rs ↔ ∃ r, r ∈ rs ∧ in_range x r.
Proof. unfold in_ranges. by rewrite Exists_exists. Qed.

Lemma insert_by_start_elem r r' rs :
  r' ∈ insert_by_start r rs ↔ r' = r ∨ r' ∈ rs.
Proof.
  induction rs as [|q rs IH]; simpl.
  - rewrite elem_of_cons, elem_of_nil. tauto.
  - destruct (Num.leb r.1 q.1).
    + rewrite !elem_of_cons. tauto.
    + rewrite !elem_of_cons, IH. tauto.
Qed.

Lemma sort_by_start_elem r rs : r ∈ sort_by_start rs ↔ r ∈ rs.
Proof.
  induction rs as [|q rs IH]; simpl; [done|].
  rewrite insert_by_start_elem, elem_of_cons, IH. tauto.
Qed.

Lemma insert_by_start_sorted r rs :
  StronglySorted by_start rs → StronglySorted by_start (insert_by_start r rs).
Proof.
  induction 1 as [|q rs Hrs IH Hq]; simpl.
  - repeat constructor.
  - destruct (Num.leb r.1 q.1) eqn:Hle.
    + constructor; [by constructor|]. constructor; [done|].
      eapply Forall_impl; [exact Hq|]. intros s Hs.
      unfold by_start in *. revert Hle Hs. clear. range_lia.
    + constructor; [done|]. apply Forall_forall. intros s Hs.
      apply insert_by_start_elem in Hs as [->|Hs].
      * unfold by_start. revert Hle. clear. range_lia.
      * rewrite Forall_forall in Hq. by apply Hq.
Qed.

Lemma sort_by_start_sorted rs : StronglySorted by_start (sort_by_start rs).
Proof.
  induction rs; simpl; [constructor|]. by apply insert_by_start_sorted.
Qed.

Lemma sort_by_start_Forall (P : TimestampRange → Prop) rs :
  Forall P rs → Forall P (sort_by_start rs).
Proof.
  rewrite !Forall_forall. intros H r Hr. by apply H, sort_by_start_elem.
Qed.

Lemma sort_by_start_points x rs :
  in_ranges x (sort_by_start rs) ↔ in_ranges x rs.
Proof.
  rewrite !in_ranges_elem. by setoid_rewrite sort_by_start_elem.
Qed.

(** Merging keeps the instants, given ranges sorted by start. *)
Lemma merge_from_points x rs cur :
  Forall (by_start cur) rs → StronglySorted by_start rs →
  in_ranges x (merge_from cur rs) ↔ in_range x cur ∨ in_ranges x rs.
Proof.
  revert cur. induction rs as [|next rs IH]; intros cur Hcur Hs; simpl.
  - rewrite in_ranges_cons. pose proof (in_ranges_nil x). tauto.
  - apply Forall_cons in Hcur as [Hnext Hcur].
    apply StronglySorted_cons in Hs as [Hrs Hs].
    rewrite (in_ranges_cons x next).
    destruct (Num.leb next.1 (Num.succ cur.2)) eqn:Hadj.
    + rewrite IH; [| |done].
      * assert (in_range x (Num.min cur.1 next.1, Num.max cur.2 next.2)
                ↔ in_range x cur ∨ in_range x next) as ->; [|tauto].
        unfold by_start in Hnext. revert Hnext Hadj. clear. range_lia.
      * eapply Forall_impl; [exact Hrs|]. intros s Hs'.
        unfold by_start in *. simpl. revert Hnext Hs'. clear. range_lia.
    + rewrite in_ranges_cons, IH by done. tauto.
Qed.

Lemma merge_from_Forall (P : TimestampRange → Prop) rs cur :
  (∀ a b, P a → P b → P (Num.min a.1 b.1, Num.max a.2 b.2)) →
  P cur → Forall P rs → Forall P (merge_from cur rs).
Proof.
  intros Hmerge. revert cur.
  induction rs as [|next rs IH]; intros cur Hcur Hrs; simpl.
  - by constructor.
  - apply Forall_cons in Hrs as [Hnext Hrs].
    destruct (Num.leb next.1 (Num.succ cur.2)).
    + apply IH; [by apply Hmerge|done].
    + constructor; [done|]. by apply IH.
Qed.

Lemma merge_from_ordered rs cur :
  ordered cur → Forall ordered rs → Forall ordered (merge_from cur rs).
Proof.
  apply merge_from_Forall. intros a b. range_lia.
Qed.

Lemma merge_from_finite rs cur :
  finite cur → Forall finite rs → Forall finite (merge_from cur rs).
Proof.
  apply merge_from_Forall. intros a b. range_lia.
Qed.

Lemma merge_from_starts lo rs cur :
  lo <=! cur.1 → Forall (λ r, lo <=! r.1) rs →
  Forall (λ r, lo <=! r.1) (merge_from cur rs).
Proof.
  apply (merge_from_Forall (λ r, lo <=! r.1)). intros a b. range_lia.
Qed.

Lemma merge_from_apart rs cur :
  Forall (by_start cur) rs → StronglySorted by_start rs →
  StronglySorted apart (merge_from cur rs).
Proof.
  revert cur. induction rs as [|next rs IH]; intros cur Hcur Hs; simpl.
  - repeat constructor.
  - apply Forall_cons in Hcur as [Hnext Hcur].
    apply StronglySorted_cons in Hs as [Hrs Hs].
    destruct (Num.leb next.1 (Num.succ cur.2)) eqn:Hadj.
    + apply IH; [|done].
      eapply Forall_impl; [exact Hrs|]. intros s Hs'.
      unfold by_start in *. simpl. revert Hnext Hs'. clear. range_lia.
    + apply StronglySorted_cons. split; [|by apply IH].
      assert (Forall (λ r, next.1 <=! r.1) (merge_from next rs)) as Hlo.
      { apply merge_from_starts; [clear; range_lia|done]. }
      eapply Forall_impl; [exact Hlo|]. intros s Hs'.
      revert Hadj Hs'. clear. range_lia.
Qed.

Lemma compactRanges_points x rs :
  in_ranges x (compactRanges rs) ↔ in_ranges x rs.
Proof.
  unfold compactRanges. rewrite <- (sort_by_start_points x rs).
  pose proof (sort_by_start_sorted rs) as Hs.
  destruct (sort_by_start rs) as [|r rs']; [done|].
  apply StronglySorted_cons in Hs as [Hr Hs].
  rewrite merge_from_points, in_ranges_cons; done.
Qed.

Lemma compactRanges_separated rs :
  Forall ordered rs → separated_sorted (compactRanges rs).
Proof.
  intros Hord. unfold compactRanges.
  pose proof (sort_by_start_sorted rs) as Hs.
  apply sort_by_start_Forall in Hord.
  destruct (sort_by_start rs) as [|r rs']; [by split; constructor|].
  apply StronglySorted_cons in Hs as [Hr Hs].
  apply Forall_cons in Hord as [Hr' Hord].
  split; [by apply merge_from_ordered|by apply merge_from_apart].
Qed.

Lemma compactRanges_ordered rs :
  Forall ordered rs → Forall ordered (compactRanges rs).
Proof. intros H. by apply compactRanges_separated. Qed.

Lemma compactRanges_finite rs :
  Forall finite rs → Forall finite (compactRanges rs).
Proof.
  intros Hfin. unfold compactRanges. apply sort_by_start_Forall in Hfin.
  destruct (sort_by_start rs) as [|r rs']; [constructor|].
  apply Forall_cons in Hfin as [Hr Hfin]. by apply merge_from_finite.
Qed.

(** ** Range arithmetic: subtraction *)

Lemma subtract_walk_ordered cs cursor tend :
  Forall ordered (subtract_walk cursor tend cs).
Proof.
  revert cursor. induction cs as [|c cs IH]; intros cursor; simpl.
  - destruct (Num.leb cursor tend) eqn:Hle; repeat constructor. exact Hle.
  - apply Forall_app. split; [|apply IH].
    destruct (Num.ltb cursor c.1) eqn:Hlt; repeat constructor.
    revert Hlt. clear. range_lia.
Qed.

(** What lies at or before the end of a range is in none of the ranges that
    come after it. *)
Lemma not_in_later_ranges x c cs :
  ordered c → Forall (before c) cs → Forall ordered cs →
  Fin x <=! c.2 → ¬ in_ranges x cs.
Proof.
  intros Hc Hbefore Hord Hx [c' [Hc' Hin]]%in_ranges_elem.
  rewrite Forall_forall in Hbefore. specialize (Hbefore _ Hc').
  revert Hbefore Hx Hin. clear. range_lia.
Qed.

Lemma walkable_cons cursor tend c cs :
  walkable cursor tend (c :: cs) →
  ordered c ∧ c.1 <=! tend ∧ cursor <=! c.2
  ∧ Forall (before c) cs ∧ Forall ordered cs
  ∧ walkable (Num.succ c.2) tend cs.
Proof.
  intros [[Hord Hs] [Hend Hcur]].
  apply Forall_cons in Hord as [Hc Hord].
  apply StronglySorted_cons in Hs as [Hbefore Hs].
  apply Forall_cons in Hend as [Hcend Hend].
  apply Forall_cons in Hcur as [Hccur Hcur].
  repeat (split; [done|]).
  rewrite Forall_forall in Hbefore, Hord. apply Forall_forall.
  intros c' Hc'. specialize (Hbefore _ Hc'). specialize (Hord _ Hc').
  revert Hbefore Hord. clear. range_lia.
Qed.

Lemma subtract_walk_points x cs cursor tend :
  walkable cursor tend cs →
  in_ranges x (subtract_walk cursor tend cs)
  ↔ cursor <=! Fin x ∧ Fin x <=! tend ∧ ¬ in_ranges x cs.
Proof.
  revert cursor. induction cs as [|c cs IH]; intros cursor Hw; simpl.
  - pose proof (in_ranges_nil x) as Hnil.
    destruct (Num.leb cursor tend) eqn:Hle.
    + rewrite in_ranges_singleton. unfold in_range. simpl. tauto.
    + split; [by intros ?%Hnil|]. intros (H1 & H2 & _). exfalso.
      revert Hle H1 H2. clear. num_lia.
  - apply walkable_cons in Hw as (Hc & Hend & Hcur & Hbefore & Hord & Hw).
    pose proof (not_in_later_ranges x c cs Hc Hbefore Hord) as Hfar.
    rewrite in_ranges_app, (IH _ Hw), (in_ranges_cons x c).
    revert Hfar. generalize (in_ranges x cs). intros Q Hfar.
    assert (in_ranges x (if Num.ltb cursor c.1
                         then [(cursor, Num.pred c.1)] else [])
            ↔ cursor <=! Fin x ∧ Fin x <! c.1) as ->.
    { destruct (Num.ltb cursor c.1) eqn:Hlt.
      - rewrite in_ranges_singleton. revert Hlt. clear. range_lia.
      - pose proof (in_ranges_nil x) as Hnil.
        split; [by intros ?%Hnil|]. intros [H1 H2]. exfalso.
        revert Hlt H1 H2. clear. range_lia. }
    revert Hc Hend Hcur Hfar. clear. range_lia.
Qed.

Lemma subtract_walk_bounds cs cursor tend :
  walkable cursor tend cs →
  Forall (λ r, cursor <=! r.1 ∧ r.2 <=! tend) (subtract_walk cursor tend cs).
Proof.
  revert cursor. induction cs as [|c cs IH]; intros cursor Hw; simpl.
  - destruct (Num.leb cursor tend) eqn:Hle; repeat constructor; simpl.
    + clear. num_lia.
    + clear. num_lia.
  - apply walkable_cons in Hw as (Hc & Hend & Hcur & Hbefore & Hord & Hw).
    apply Forall_app. split.
    + destruct (Num.ltb cursor c.1) eqn:Hlt; repeat constructor; simpl.
      * clear. num_lia.
      * revert Hend. clear. range_lia.
    + eapply Forall_impl; [exact (IH _ Hw)|]. intros r.
      revert Hcur. clear. range_lia.
Qed.

Lemma subtract_walk_apart cs cursor tend :
  Num.is_fin tend → walkable cursor tend cs →
  StronglySorted apart (subtract_walk cursor tend cs).
Proof.
  intros Hfin. revert cursor.
  induction cs as [|c cs IH]; intros cursor Hw; simpl.
  - destruct (Num.leb cursor tend); repeat constructor.
  - apply walkable_cons in Hw as (Hc & Hend & Hcur & Hbefore & Hord & Hw).
    apply StronglySorted_app. split; [|split; [|by apply IH]].
    + intros r1 r2 Hr1 Hr2.
      pose proof (subtract_walk_bounds _ _ _ Hw) as Hb.
      rewrite Forall_forall in Hb. specialize (Hb _ Hr2).
      destruct (Num.ltb cursor c.1) eqn:Hlt; [|by apply elem_of_nil in Hr1].
      apply list_elem_of_singleton in Hr1 as ->.
      revert Hfin Hc Hend Hlt Hb. clear. range_lia.
    + destruct (Num.ltb cursor c.1); repeat constructor.
Qed.

Lemma subtract_walk_finite cs cursor tend :
  Num.is_fin tend → cursor ≠ NegInf → walkable cursor tend cs →
  Forall finite (subtract_walk cursor tend cs).
Proof.
  intros Hfin. revert cursor.
  induction cs as [|c cs IH]; intros cursor Hneg Hw; simpl.
  - destruct (Num.leb cursor tend) eqn:Hle; repeat constructor; simpl.
    + revert Hle Hneg Hfin. clear. num_lia.
    + done.
  - apply walkable_cons in Hw as (Hc & Hend & Hcur & Hbefore & Hord & Hw).
    apply Forall_app. split.
    + destruct (Num.ltb cursor c.1) eqn:Hlt; repeat constructor; simpl.
      * revert Hlt Hneg. clear. range_lia.
      * revert Hlt Hend Hfin. clear. range_lia.
    + apply IH; [|done]. revert Hcur Hneg. clear. range_lia.
Qed.

(** The covered ranges that intersect a target can be walked. *)
Lemma intersecting_walkable t covered :
  disjoint_sorted covered →
  walkable t.1 t.2 (filter (λ c, intersects t c = true) covered).
Proof.
  intros [Hord Hs]. split; [split|split].
  - rewrite Forall_forall in Hord. apply Forall_forall.
    intros c [_ Hc]%list_elem_of_filter. by apply Hord.
  - eapply sublist_sorted; [apply sublist_filter|done].
  - apply Forall_forall. intros c [Hc _]%list_elem_of_filter.
    revert Hc. clear. range_lia.
  - apply Forall_forall. intros c [Hc _]%list_elem_of_filter.
    revert Hc. clear. range_lia.
Qed.

Lemma intersecting_points x t covered :
  in_range x t →
  in_ranges x (filter (λ c, intersects t c = true) covered)
  ↔ in_ranges x covered.
Proof.
  intros Hx. rewrite !in_ranges_elem. split.
  - intros (c & [_ Hc]%list_elem_of_filter & Hin). eauto.
  - intros (c & Hc & Hin). exists c. split; [|done].
    apply list_elem_of_filter. split; [|done].
    revert Hx Hin. clear. range_lia.
Qed.

Lemma subtract_single_points x t covered :
  disjoint_sorted covered →
  in_ranges x (subtract_single t covered)
  ↔ in_range x t ∧ ¬ in_ranges x covered.
Proof.
  intros Hcov. unfold subtract_single.
  rewrite subtract_walk_points by by apply intersecting_walkable.
  split.
  - intros (H1 & H2 & H3).
    assert (in_range x t) as Ht by done.
    split; [done|]. by rewrite <- (intersecting_points x t covered Ht).
  - intros [Ht Hno]. destruct Ht as [H1 H2]. repeat split; [done|done|].
    by rewrite (intersecting_points x t covered).
Qed.

Lemma subtract_each_cons t targets covered :
  subtract_each (t :: targets) covered
  = subtract_single t covered ++ subtract_each targets covered.
Proof. done. Qed.

Lemma subtract_each_points x targets covered :
  disjoint_sorted covered →
  in_ranges x (subtract_each targets covered) ↔ uncovered targets covered x.
Proof.
  intros Hcov. unfold uncovered.
  induction targets as [|t targets IH].
  - pose proof (in_ranges_nil x). unfold subtract_each. simpl. tauto.
  - rewrite subtract_each_cons, in_ranges_app, IH, in_ranges_cons,
      subtract_single_points by done.
    tauto.
Qed.

Lemma subtract_each_ordered targets covered :
  Forall ordered (subtract_each targets covered).
Proof.
  induction targets as [|t targets IH]; [constructor|].
  rewrite subtract_each_cons. apply Forall_app. split; [|done].
  apply subtract_walk_ordered.
Qed.

Lemma subtract_each_finite targets covered :
  Forall finite targets → disjoint_sorted covered →
  Forall finite (subtract_each targets covered).
Proof.
  intros Hfin Hcov. induction Hfin as [|t targets Ht Hfin IH]; [constructor|].
  rewrite subtract_each_cons. apply Forall_app. split; [|done].
  apply subtract_walk_finite; [apply Ht| |by apply intersecting_walkable].
  destruct Ht as [Ht _]. revert Ht. clear. range_lia.
Qed.

Lemma subtract_each_within targets covered :
  disjoint_sorted covered →
  Forall (λ r, ∃ t, t ∈ targets ∧ t.1 <=! r.1 ∧ r.2 <=! t.2)
    (subtract_each targets covered).
Proof.
  intros Hcov. induction targets as [|t targets IH]; [constructor|].
  rewrite subtract_each_cons. apply Forall_app. split.
  - eapply Forall_impl;
      [exact (subtract_walk_bounds _ _ _ (intersecting_walkable t _ Hcov))|].
    intros r Hr. exists t. split; [apply elem_of_cons; by left|done].
  - eapply Forall_impl; [exact IH|]. intros r (t' & Ht' & Hr).
    exists t'. split; [apply elem_of_cons; by right|done].
Qed.

Lemma subtract_each_apart targets covered :
  Forall finite targets → StronglySorted apart targets →
  disjoint_sorted covered →
  StronglySorted apart (subtract_each targets covered).
Proof.
  intros Hfin Hs Hcov.
  induction Hs as [|t targets Hs IH Ht]; [constructor|].
  apply Forall_cons in Hfin as [Htfin Hfin].
  rewrite subtract_each_cons. apply StronglySorted_app.
  split; [|split; [|by apply IH]].
  - intros r1 r2 Hr1 Hr2.
    pose proof (subtract_walk_bounds _ _ _ (intersecting_walkable t _ Hcov))
      as Hb1.
    rewrite Forall_forall in Hb1. specialize (Hb1 _ Hr1).
    pose proof (subtract_each_within targets covered Hcov) as Hb2.
    rewrite Forall_forall in Hb2.
    destruct (Hb2 _ Hr2) as (t' & Ht' & Hb2').
    rewrite Forall_forall in Ht. specialize (Ht _ Ht').
    revert Htfin Hb1 Hb2' Ht. clear. range_lia.
  - apply subtract_walk_apart; [apply Htfin|by apply intersecting_walkable].
Qed.

Lemma compactRanges_apart rs : StronglySorted apart (compactRanges rs).
Proof.
  unfold compactRanges. pose proof (sort_by_start_sorted rs) as Hs.
  destruct (sort_by_start rs) as [|r rs']; [constructor|].
  apply StronglySorted_cons in Hs as [Hr Hs]. by apply merge_from_apart.
Qed.

Lemma compactRanges_singleton r : compactRanges [r] = [r].
Proof. done. Qed.

Lemma subtractRanges_points x targets covered :
  disjoint_sorted covered →
  in_ranges x (subtractRanges targets covered) ↔ uncovered targets covered x.
Proof.
  intros Hcov. unfold subtractRanges.
  rewrite subtract_each_points by done. unfold uncovered.
  by rewrite compactRanges_points.
Qed.

Lemma subtractRanges_ordered targets covered :
  Forall ordered (subtractRanges targets covered).
Proof. apply subtract_each_ordered. Qed.

Lemma subtractRanges_finite targets covered :
  Forall finite targets → disjoint_sorted covered →
  Forall finite (subtractRanges targets covered).
Proof.
  intros Hfin Hcov. apply subtract_each_finite; [|done].
  by apply compactRanges_finite.
Qed.


Lemma subtractRanges_apart targets covered :
  Forall finite targets → disjoint_sorted covered →
  StronglySorted apart (subtractRanges targets covered).
Proof.
  intros Hfin Hcov. apply subtract_each_apart; [|apply compactRanges_apart|done].
  by apply compactRanges_finite.
Qed.

(** The two laws of section 8 of the specification. *)
Lemma subtractRanges_nothing_covered targets :
  Forall ordered targets → subtractRanges targets [] = compactRanges targets.
Proof.
  intros Hord. apply compactRanges_ordered in Hord. unfold subtractRanges.
  revert Hord. generalize (compactRanges targets). intros ts Hord.
  induction Hord as [|t ts Ht Hord IH]; [done|].
  rewrite subtract_each_cons, IH. unfold subtract_single. simpl.
  unfold ordered, Num.le in Ht. rewrite Ht. by destruct t.
Qed.

(** A list of ordered finite ranges without an instant is empty. *)
Lemma no_instant_nil rs :
  Forall ordered rs → Forall finite rs → (∀ x, ¬ in_ranges x rs) → rs = [].
Proof.
  intros Hord Hfin Hno. destruct rs as [|r rs]; [done|]. exfalso.
  apply Forall_cons in Hord as [Hr _]. apply Forall_cons in Hfin as [Hf _].
  destruct r as [[|a|] [|b|]]; try (by destruct Hf).
  apply (Hno a), in_ranges_cons. left.
  revert Hr. clear. range_lia.
Qed.

Lemma subtractRanges_self targets :
  Forall finite targets → disjoint_sorted targets →
  subtractRanges targets targets = [].
Proof.
  intros Hfin Hdis. apply no_instant_nil.
  - apply subtractRanges_ordered.
  - by apply subtractRanges_finite.
  - intros x [Hx Hno]%subtractRanges_points; done.
Qed.

Lemma sorted_trichotomy {A} (R : relation A) l x y :
  StronglySorted R l → x ∈ l → y ∈ l → x = y ∨ R x y ∨ R y x.
Proof.
  induction 1 as [|z l Hl IH Hz]; intros Hx Hy.
  - by apply elem_of_nil in Hx.
  - rewrite Forall_forall in Hz.
    apply elem_of_cons in Hx as [->|Hx]; apply elem_of_cons in Hy as [->|Hy];
      auto.
Qed.

(** C9. For targets with finite ends, in any order and overlapping or not,
    and covered ranges that are disjoint and sorted, [subtractRanges]
    returns the instants of the targets that no covered range contains, as
    a sorted list of non-empty finite ranges with at least one instant
    between two consecutive ones; each of them is maximal: the instant just
    before it and the instant just after it are covered or outside the
    targets.  In particular
    [subtract([[0,100]], [[10,20],[30,40]]) = [[0,9],[21,29],[41,100]]]. *)
Theorem subtractRanges_maximal_gaps (targets covered : list TimestampRange) :
  Forall finite targets → disjoint_sorted covered →
  (∀ x : Z,
     in_ranges x (subtractRanges targets covered)
     ↔ uncovered targets covered x)
  ∧ separated_sorted (subtractRanges targets covered)
  ∧ Forall finite (subtractRanges targets covered)
  ∧ (∀ a b : Z,
       (Fin a, Fin b) ∈ subtractRanges targets covered →
       ¬ uncovered targets covered (a - 1)
       ∧ ¬ uncovered targets covered (b + 1))
  ∧ subtractRanges [zr 0 100] [zr 10 20; zr 30 40]
    = [zr 0 9; zr 21 29; zr 41 100].
Proof.
  intros Hfin Hcov.
  pose proof (subtractRanges_apart targets covered Hfin Hcov) as Hapart.
  pose proof (subtractRanges_ordered targets covered) as Hgord.
  split; [intros x; by apply subtractRanges_points|].
  split; [done|]. split; [by apply subtractRanges_finite|].
  split; [|done].
  intros a b Hab. rewrite Forall_forall in Hgord.
  pose proof (Hgord _ Hab) as Hr.
  split; intros Hun; apply subtractRanges_points in Hun; try done;
    apply in_ranges_elem in Hun as (r' & Hr' & Hin);
    pose proof (Hgord _ Hr') as Hr'ord;
    destruct (sorted_trichotomy _ _ _ _ Hapart Hab Hr') as [<-|[H|H]];
    revert Hr Hr'ord Hin; try revert H; clear; range_lia.
Qed.

Lemma subtractRanges_maximal_gaps_witness :
  (∀ x : Z,
     in_ranges x (subtractRanges [zr 50 100; zr 0 60] [zr 10 20; zr 30 40])
     ↔ uncovered [zr 50 100; zr 0 60] [zr 10 20; zr 30 40] x)
  ∧ separated_sorted
      (subtractRanges [zr 50 100; zr 0 60] [zr 10 20; zr 30 40])
  ∧ Forall finite (subtractRanges [zr 50 100; zr 0 60] [zr 10 20; zr 30 40])
  ∧ (∀ a b : Z,
       (Fin a, Fin b)
       ∈ subtractRanges [zr 50 100; zr 0 60] [zr 10 20; zr 30 40] →
       ¬ uncovered [zr 50 100; zr 0 60] [zr 10 20; zr 30 40] (a - 1)
       ∧ ¬ uncovered [zr 50 100; zr 0 60] [zr 10 20; zr 30 40] (b + 1))
  ∧ subtractRanges [zr 0 100] [zr 10 20; zr 30 40]
    = [zr 0 9; zr 21 29; zr 41 100].
Proof.
  apply (subtractRanges_maximal_gaps [zr 50 100; zr 0 60]
           [zr 10 20; zr 30 40]).
  - repeat constructor.
  - split; repeat constructor.
Defined.

(** ** The ranges stored by the coordinator *)

Lemma elem_of_insert_inv {A} (l : list A) i x y :
  y ∈ <[i:=x]> l → y = x ∨ y ∈ l.
Proof.
  intros [j Hj]%list_elem_of_lookup.
  apply list_lookup_insert_Some in Hj as [(_ & -> & _)|[_ Hj]]; [by left|].
  right. by eapply list_elem_of_lookup_2.
Qed.

Lemma tasks_ok_mono tr tr' ts :
  tasks_ok tr ts → (∀ a, a ∈ tr → a ∈ tr') → tasks_ok tr' ts.
Proof.
  intros Hok Hsub. eapply Forall_impl; [exact Hok|].
  intros t [Hreq Hrest]. split; [by apply Hsub|done].
Qed.

Lemma tasks_ok_app tr ts1 ts2 :
  tasks_ok tr (ts1 ++ ts2) ↔ tasks_ok tr ts1 ∧ tasks_ok tr ts2.
Proof. apply Forall_app. Qed.

Lemma covered_of_ordered c key :
  ranges_ordered c → Forall ordered (covered_of c key).
Proof.
  intros Hc. unfold covered_of.
  destruct (ranges c !! key) as [rs|] eqn:Hrs; simpl; [by eapply Hc|constructor].
Qed.

Lemma add_ranges_ordered c entity states r c' :
  ranges_ordered c → ordered r → add c entity states r = Some c' →
  ranges_ordered c'.
Proof.
  intros Hc Hr Hadd. unfold add in Hadd.
  destruct (getEntityKey entity) as [k|]; [|done]. simpl in Hadd.
  injection Hadd as <-. intros key rs. simpl.
  destruct (decide (k = key)) as [->|Hne].
  - rewrite lookup_insert_eq. intros [= <-].
    apply compactRanges_ordered, Forall_app. split.
    + by apply covered_of_ordered.
    + by repeat constructor.
  - rewrite lookup_insert_ne by done. apply Hc.
Qed.

Lemma removeOutsideRange_ranges_ordered c r :
  ranges_ordered (removeOutsideRange c r).
Proof.
  intros key rs. unfold removeOutsideRange, mapValues. simpl.
  rewrite lookup_fmap. destruct (ranges c !! key); [|done].
  intros [= <-]. apply subtractRanges_ordered.
Qed.

Lemma ensure_ranges_covered_of key c k :
  covered_of (ensure_ranges key c) k = covered_of c k.
Proof.
  unfold ensure_ranges, covered_of.
  destruct (ranges c !! key) eqn:Hkey; [done|]. simpl.
  destruct (decide (key = k)) as [->|Hne].
  - by rewrite lookup_insert_eq, Hkey.
  - by rewrite lookup_insert_ne.
Qed.

Lemma ensure_ranges_ordered key c :
  ranges_ordered c → ranges_ordered (ensure_ranges key c).
Proof.
  intros Hc k rs Hrs.
  pose proof (ensure_ranges_covered_of key c k) as Heq.
  unfold covered_of in Heq. rewrite Hrs in Heq. simpl in Heq. subst rs.
  by apply covered_of_ordered.
Qed.

Lemma next_fetch_ok now op u entity gaps slot acts :
  Forall ordered gaps → next_fetch now op u entity gaps = (slot, acts) →
  tasks_ok acts (omap running_task [slot]).
Proof.
  intros Hgaps Hnext. destruct gaps as [|g gaps]; simpl in Hnext.
  - injection Hnext as <- <-. constructor.
  - apply Forall_cons in Hgaps as [_ Hgaps].
    injection Hnext as <- <-. simpl. constructor; [|constructor].
    split; [|done]. apply list_elem_of_singleton. reflexivity.
Qed.

Lemma start_task_ok now op u c entity c' slot acts :
  ranges_ordered c → start_task now op u c entity = (c', slot, acts) →
  ranges_ordered c' ∧ tasks_ok acts (omap running_task [slot]).
Proof.
  intros Hc Hstart. unfold start_task in Hstart.
  destruct (getEntityKey entity) as [key|].
  - destruct (next_fetch _ _ _ _ _) as [slot' acts'] eqn:Hnext.
    injection Hstart as <- <- <-.
    split; [by apply ensure_ranges_ordered|].
    eapply next_fetch_ok; [|exact Hnext]. apply subtractRanges_ordered.
  - injection Hstart as <- <- <-. split; [done|constructor].
Qed.

Lemma start_tasks_ok now op u entities c c' slots acts :
  ranges_ordered c → start_tasks now op u c entities = (c', slots, acts) →
  ranges_ordered c' ∧ tasks_ok acts (omap running_task slots).
Proof.
  revert c c' slots acts.
  induction entities as [|entity entities IH]; intros c c' slots acts Hc Hst;
    simpl in Hst.
  - injection Hst as <- <- <-. split; [done|constructor].
  - destruct (start_task now op u c entity) as [[c1 slot] acts1] eqn:H1.
    destruct (start_tasks now op u c1 entities) as [[c2 slots2] acts2] eqn:H2.
    injection Hst as <- <- <-.
    destruct (start_task_ok _ _ _ _ _ _ _ _ Hc H1) as [Hc1 Hok1].
    destruct (IH _ _ _ _ Hc1 H2) as [Hc2 Hok2].
    split; [done|].
    change (slot :: slots2) with ([slot] ++ slots2).
    rewrite omap_app. apply tasks_ok_app. split.
    + eapply tasks_ok_mono; [exact Hok1|]. intros a. rewrite elem_of_app. auto.
    + eapply tasks_ok_mono; [exact Hok2|]. intros a. rewrite elem_of_app. auto.
Qed.

Lemma start_update_ok now op u c c' slots acts :
  ranges_ordered c → start_update now op u c = (c', slots, acts) →
  ranges_ordered c' ∧ tasks_ok acts (omap running_task slots).
Proof.
  intros Hc. unfold start_update. apply start_tasks_ok.
  destruct (u_removeOutsideRange u);
    [apply removeOutsideRange_ranges_ordered|done].
Qed.

Lemma run_queue_ok q now c orph tr next :
  ranges_ordered c → tasks_ok tr orph →
  ranges_ordered (cache (run_queue now c orph tr next q))
  ∧ tasks_ok (trace (run_queue now c orph tr next q))
      (live_tasks (run_queue now c orph tr next q)).
Proof.
  revert c orph tr.
  induction q as [|[op u] q IH]; intros c orph tr Hc Horph; simpl.
  - done.
  - destruct (start_update now op u c) as [[c' slots] acts] eqn:Hstart.
    destruct (start_update_ok _ _ _ _ _ _ _ Hc Hstart) as [Hc' Hnew].
    assert (tasks_ok (tr ++ Started op :: acts)
              (orph ++ omap running_task slots)) as Hall.
    { apply tasks_ok_app. split.
      - eapply tasks_ok_mono; [exact Horph|]. intros a.
        rewrite elem_of_app. auto.
      - eapply tasks_ok_mono; [exact Hnew|]. intros a.
        rewrite elem_of_app, elem_of_cons. auto. }
    destruct (promise_all slots) as [ok|].
    + apply IH; [done|].
      eapply tasks_ok_mono; [exact Hall|]. intros a.
      rewrite (elem_of_app _ [Settled op ok]). auto.
    + split; [done|]. unfold live_tasks. simpl.
      apply tasks_ok_app. apply tasks_ok_app in Hall. tauto.
Qed.

(** The range a well-timed fetch reports is ordered. *)
Lemma well_timed_recorded tr t :
  well_timed tr → task_request t ∈ tr → ordered (recorded t).
Proof.
  intros Hwt Hreq. specialize (Hwt _ _ Hreq).
  unfold recorded, ordered, fetchSingleRange in *.
  destruct (t_gap t) as [startT endT]. simpl in *.
  destruct (isEntityIdStatisticsConfig (t_entity t)); simpl in Hwt;
    revert Hwt; generalize (t_now t); clear; range_lia.
Qed.

Lemma resume_task_ok now t states c c' slot acts :
  ranges_ordered c → ordered (recorded t) → Forall ordered (t_rest t) →
  resume_task now t states c = (c', slot, acts) →
  ranges_ordered c' ∧ tasks_ok acts (omap running_task [slot]).
Proof.
  intros Hc Hrec Hrest Hres. unfold resume_task in Hres.
  destruct (t_gap t) as [startT endT] eqn:Hgap. simpl in Hres.
  destruct (add c (t_entity t) (mark_boundary states)
              (startT, Num.min endT (Fin (t_now t)))) as [c1|] eqn:Hadd.
  - destruct (next_fetch now (t_op t) (t_args t) (t_entity t) (t_rest t))
      as [slot' acts'] eqn:Hnext.
    injection Hres as <- <- <-. split.
    + eapply add_ranges_ordered; [exact Hc| |exact Hadd].
      unfold recorded in Hrec. by rewrite Hgap in Hrec.
    + eapply tasks_ok_mono; [by eapply next_fetch_ok|].
      intros a. rewrite elem_of_cons. auto.
  - injection Hres as <- <- <-. split; [done|constructor].
Qed.

Lemma settle_task_ok now t answer c c' slot acts :
  ranges_ordered c → ordered (recorded t) → Forall ordered (t_rest t) →
  settle_task now t answer c = (c', slot, acts) →
  ranges_ordered c' ∧ tasks_ok acts (omap running_task [slot]).
Proof.
  intros Hc Hrec Hrest. destruct answer as [states|]; simpl.
  - by apply resume_task_ok.
  - intros [= <- <- <-]. split; [done|constructor].
Qed.

Lemma step_trace w ev a : a ∈ trace w → a ∈ trace (step w ev).
Proof.
  intros Ha. destruct ev as [u now|ref answer now|entity states r|r|]; simpl.
  - unfold update. destruct (current w); [done|]. by apply run_queue_trace.
  - unfold respond. destruct ref as [i|i].
    + destruct (current w) as [[op slots]|]; [|done].
      destruct (slots !! i) as [[t| |]|]; try done.
      destruct (settle_task now t answer (cache w)) as [[c' slot] acts].
      destruct (promise_all _) as [ok|]; simpl.
      * apply run_queue_trace. rewrite !elem_of_app. auto.
      * rewrite elem_of_app. auto.
    + destruct (orphans w !! i) as [t|]; [|done].
      destruct (settle_task now t answer (cache w)) as [[c' slot] acts].
      simpl. rewrite elem_of_app. auto.
  - by destruct (add (cache w) entity states r).
  - done.
  - done.
Qed.

Lemma live_task_ok w t :
  world_ok w → well_timed (trace w) → t ∈ live_tasks w →
  ordered (recorded t) ∧ Forall ordered (t_rest t).
Proof.
  intros [_ Hts] Hwt Ht. unfold tasks_ok in Hts. rewrite Forall_forall in Hts.
  destruct (Hts _ Ht) as [Hreq Hrest]. split; [|done].
  by eapply well_timed_recorded.
Qed.

Lemma respond_ok w ref answer now :
  world_ok w → well_timed (trace w) → world_ok (respond w ref answer now).
Proof.
  intros Hw Hwt. pose proof Hw as [Hc Hts]. unfold respond.
  destruct ref as [i|i].
  - destruct (current w) as [[op slots]|] eqn:Hcur; [|done].
    destruct (slots !! i) as [[t| |]|] eqn:Hi; try done.
    assert (t ∈ live_tasks w) as Ht.
    { unfold live_tasks. rewrite Hcur, elem_of_app. left.
      apply list_elem_of_omap. exists (Running t).
      split; [by eapply list_elem_of_lookup_2|done]. }
    destruct (live_task_ok _ _ Hw Hwt Ht) as [Hrec Hrest].
    destruct (settle_task now t answer (cache w)) as [[c' slot] acts] eqn:Hst.
    destruct (settle_task_ok _ _ _ _ _ _ _ Hc Hrec Hrest Hst) as [Hc' Hnew].
    unfold live_tasks in Hts. rewrite Hcur in Hts.
    apply tasks_ok_app in Hts as [Hcurts Horph].
    assert (tasks_ok (trace w ++ acts)
              (omap running_task (<[i:=slot]> slots))) as Hslots.
    { apply Forall_forall. intros t' (s & Hs & Hrun)%list_elem_of_omap.
      apply elem_of_insert_inv in Hs as [->|Hs].
      - eapply tasks_ok_mono in Hnew;
          [|intros a; rewrite (elem_of_app (trace w)); by right].
        unfold tasks_ok in Hnew. rewrite Forall_forall in Hnew.
        apply Hnew, list_elem_of_omap. exists slot.
        split; [by apply list_elem_of_singleton|done].
      - eapply tasks_ok_mono in Hcurts;
          [|intros a; rewrite (elem_of_app (trace w)); by left].
        unfold tasks_ok in Hcurts. rewrite Forall_forall in Hcurts.
        apply Hcurts, list_elem_of_omap. by exists s. }
    assert (tasks_ok (trace w ++ acts) (orphans w)) as Horph'.
    { eapply tasks_ok_mono; [exact Horph|]. intros a.
      rewrite elem_of_app. auto. }
    destruct (promise_all (<[i:=slot]> slots)) as [ok|].
    + apply run_queue_ok; [done|].
      eapply tasks_ok_mono; [apply tasks_ok_app; split; eassumption|].
      intros a. rewrite (elem_of_app _ [Settled op ok]). auto.
    + split; [done|]. unfold live_tasks. simpl. by apply tasks_ok_app.
  - destruct (orphans w !! i) as [t|] eqn:Hi; [|done].
    assert (t ∈ live_tasks w) as Ht.
    { unfold live_tasks. rewrite elem_of_app. right.
      by eapply list_elem_of_lookup_2. }
    destruct (live_task_ok _ _ Hw Hwt Ht) as [Hrec Hrest].
    destruct (settle_task now t answer (cache w)) as [[c' slot] acts] eqn:Hst.
    destruct (settle_task_ok _ _ _ _ _ _ _ Hc Hrec Hrest Hst) as [Hc' Hnew].
    split; [done|]. unfold live_tasks in *. simpl.
    apply tasks_ok_app in Hts as [Hcurts Horph].
    apply tasks_ok_app. split.
    + eapply tasks_ok_mono; [exact Hcurts|]. intros a.
      rewrite elem_of_app. auto.
    + eapply tasks_ok_mono in Horph;
        [|intros a; rewrite (elem_of_app (trace w) acts); by left].
      unfold tasks_ok in *. rewrite Forall_forall in Horph.
      apply Forall_forall. intros t' Ht'.
      destruct slot as [t1| |].
      * apply elem_of_insert_inv in Ht' as [->|Ht']; [|by apply Horph].
        eapply tasks_ok_mono in Hnew;
          [|intros a; rewrite (elem_of_app (trace w)); by right].
        unfold tasks_ok in Hnew. rewrite Forall_forall in Hnew.
        apply Hnew. simpl. by apply list_elem_of_singleton.
      * apply Horph. by eapply list_elem_of_delete_inv.
      * apply Horph. by eapply list_elem_of_delete_inv.
Qed.

Lemma step_ok w ev :
  world_ok w → direct_add_ordered ev → well_timed (trace w) →
  world_ok (step w ev).
Proof.
  intros Hw Hev Hwt. pose proof Hw as [Hc Hts].
  destruct ev as [u now|ref answer now|entity states r|r|]; simpl.
  - unfold update. destruct (current w) as [cur|] eqn:Hcur.
    + split; [done|]. unfold live_tasks in *. simpl. by rewrite Hcur in Hts.
    + apply run_queue_ok; [done|].
      unfold live_tasks in Hts. by rewrite Hcur in Hts.
  - by apply respond_ok.
  - destruct (add (cache w) entity states r) as [c'|] eqn:Hadd; [|done].
    split; [by eapply add_ranges_ordered|done].
  - split; [apply removeOutsideRange_ranges_ordered|done].
  - split; [|done]. intros key rs. simpl. by rewrite lookup_empty.
Qed.

Lemma run_snoc w evs ev : run w (evs ++ [ev]) = step (run w evs) ev.
Proof. unfold run. by rewrite foldl_app. Qed.

Lemma run_ok evs :
  Forall direct_add_ordered evs →
  well_timed (trace (run (init_world empty_cache) evs)) →
  world_ok (run (init_world empty_cache) evs).
Proof.
  induction evs as [|ev evs IH] using rev_ind; intros Hevs Hwt.
  - split; [|constructor]. intros key rs. simpl. by rewrite lookup_empty.
  - rewrite run_snoc in *. apply Forall_app in Hevs as [Hevs Hev].
    apply Forall_cons in Hev as [Hev _].
    assert (well_timed (trace (run (init_world empty_cache) evs))) as Hwt'.
    { intros op call Hin. apply (Hwt op call). by apply step_trace. }
    apply step_ok; auto.
Qed.

(** C7, counterexample: at the clock reading 150 an update asks for the
    window [[200, 300]], which lies in the future; the gap is fetched with
    its end cut at 150, and the range stored as covered is [[200, 150]]. *)
Lemma update_future_range_inverted :
  let u := {| u_range := zr 200 300; u_removeOutsideRange := false;
              u_entities := [sensor_b];
              u_significant_changes_only := true;
              u_minimal_response := true |} in
  let w := run (init_world empty_cache)
             [CallUpdate u 150; Answer (OfCurrent 0) (Some []) 151] in
  ordered (u_range u)
  ∧ ranges (cache w) !! "sensor.b" = Some [zr 200 150]
  ∧ ¬ ordered (zr 200 150).
Proof. split; [done|]. split; [by vm_compute|]. vm_compute. discriminate. Qed.

(** C7, amended. In every state reached from the empty cache by calls of
    [add] with an ordered range, calls of [update], [removeOutsideRange] and
    [clearCache], and answers of the adapter, every range stored as covered
    for any series has its start at or before its end, provided every fetch
    so far was issued for a gap that starts at or before the clock reading
    of that fetch. *)
Theorem stored_ranges_ordered (evs : list Event) (key : string)
  (r : TimestampRange) :
  Forall direct_add_ordered evs →
  well_timed (trace (run (init_world empty_cache) evs)) →
  r ∈ covered_of (cache (run (init_world empty_cache) evs)) key →
  r.1 <=! r.2.
Proof.
  intros Hevs Hwt Hr. destruct (run_ok evs Hevs Hwt) as [Hc _].
  pose proof (covered_of_ordered _ key Hc) as Hord.
  rewrite Forall_forall in Hord. by apply Hord.
Qed.

(** ** Adding nothing *)

Lemma ascending_cons x l :
  ascending (x :: l) → Forall (ts_lt x) l ∧ ascending l.
Proof.
  intros Hasc. split.
  - apply Forall_forall. intros y [j Hj]%list_elem_of_lookup.
    apply (Hasc 0%nat (S j)); [done|done|lia].
  - intros i j a b Hi Hj Hij. apply (Hasc (S i) (S j)); [done|done|lia].
Qed.

Lemma ascending_sorted_lt h : ascending h → StronglySorted ts_lt h.
Proof.
  induction h as [|x l IH]; intros Hasc; [constructor|].
  apply ascending_cons in Hasc as [Hx Hl].
  apply StronglySorted_cons. split; [done|by apply IH].
Qed.

Lemma insert_by_timestamp_head x l :
  Forall (ts_lt x) l → insert_by_timestamp x l = x :: l.
Proof.
  destruct l as [|y l]; [done|]. intros [Hy _]%Forall_cons. simpl.
  unfold ts_lt in Hy. destruct (Z.leb_spec (timestamp x) (timestamp y)); [done|lia].
Qed.

Lemma sort_by_timestamp_sorted_id h :
  StronglySorted ts_lt h → sort_by_timestamp h = h.
Proof.
  induction 1 as [|x l Hl IH Hx]; simpl; [done|].
  rewrite IH. by apply insert_by_timestamp_head.
Qed.

Lemma dedup_after_id p l :
  Forall (λ y, p < timestamp y) l → StronglySorted ts_lt l →
  dedup_after p l = l.
Proof.
  intros Hp Hs. revert p Hp. induction Hs as [|x l Hl IH Hx]; intros p Hp.
  - done.
  - apply Forall_cons in Hp as [Hpx Hp]. simpl.
    rewrite bool_decide_eq_false_2 by lia. f_equal. by apply IH.
Qed.

Lemma filter_all {A} (P : A → Prop) `{∀ x, Decision (P x)} (l : list A) :
  (∀ x, x ∈ l → P x) → filter P l = l.
Proof.
  induction l as [|x l IH]; intros Hall; [done|].
  rewrite filter_cons_True by (apply Hall, elem_of_cons; by left).
  f_equal. apply IH. intros y Hy. apply Hall, elem_of_cons. by right.
Qed.

(** A well-formed sequence is left as it is by the three passes. *)
Lemma merge_history_nil h : history_ok h → merge_history h [] = h.
Proof.
  intros (Hasc & _ & Hflag). unfold merge_history. rewrite app_nil_r.
  pose proof (ascending_sorted_lt h Hasc) as Hs.
  rewrite (sort_by_timestamp_sorted_id h Hs).
  destruct h as [|x l]; [done|].
  rewrite first_pass_cons.
  assert (filter (λ y, fake_boundary_datapoint y = false) l = l) as ->.
  { apply filter_all. intros y [j Hj]%list_elem_of_lookup.
    destruct (fake_boundary_datapoint y) eqn:Hy; [|done].
    by specialize (Hflag (S j) y Hj Hy). }
  rewrite last_pass_cons. f_equal.
  apply StronglySorted_cons in Hs as [Hx Hs]. by apply dedup_after_id.
Qed.

Lemma apart_before a b : apart a b → before a b.
Proof. unfold apart, before. clear. range_lia. Qed.

Lemma separated_disjoint rs : separated_sorted rs → disjoint_sorted rs.
Proof.
  intros [Hord Hs]. split; [done|].
  induction Hs as [|r rs Hs IH Hr]; [constructor|].
  apply Forall_cons in Hord as [_ Hord].
  apply StronglySorted_cons. split; [|by apply IH].
  eapply Forall_impl; [exact Hr|]. intros r'. apply apart_before.
Qed.

Lemma add_covered_of c entity key states r c' :
  getEntityKey entity = Some key → add c entity states r = Some c' →
  covered_of c' key = compactRanges (covered_of c key ++ [r])
  ∧ ∀ k, k ≠ key → covered_of c' k = covered_of c k.
Proof.
  intros Hkey Hadd. unfold add in Hadd. rewrite Hkey in Hadd. simpl in Hadd.
  injection Hadd as <-. unfold covered_of. simpl. split.
  - by rewrite lookup_insert_eq.
  - intros k Hk. by rewrite lookup_insert_ne.
Qed.

Lemma add_is_Some c entity key states r :
  getEntityKey entity = Some key → is_Some (add c entity states r).
Proof. intros Hkey. unfold add. rewrite Hkey. by eexists. Qed.

(** C10, counterexample.  First, a state reached through [add] and
    [removeOutsideRange] in which adding nothing changes the observations:
    the trim leaves [5, 60, 100, 300, 160], which [add] sorts again.
    Second, a gap whose fetch found nothing and that is fetched again in
    part: at the clock reading 150 the gap [[100, 200]] is recorded as
    covered up to 150 only, and an update over the same window still has
    the gap [[151, 200]] to fetch. *)
Lemma add_nothing_changes_trimmed_history :
  let c0 := add_all empty_cache
              [(sensor_a, obs <$> [5; 60; 100; 160; 300], zr 0 400)] in
  let c := removeOutsideRange c0 (zr 50 150) in
  let u := {| u_range := zr 100 200; u_removeOutsideRange := false;
              u_entities := [sensor_b];
              u_significant_changes_only := true;
              u_minimal_response := true |} in
  let w := run (init_world empty_cache)
             [CallUpdate u 150; Answer (OfCurrent 0) (Some []) 151] in
  (timestamp <$> default [] (getHistory c sensor_a)) = [5; 60; 100; 300; 160]
  ∧ (timestamp <$> default [] (getHistory (add_call c (sensor_a, [], zr 50 150))
                                 sensor_a))
    = [5; 60; 100; 160; 300]
  ∧ covered_of (cache w) "sensor.b" = [zr 100 150]
  ∧ subtractRanges [u_range u] (covered_of (cache w) "sensor.b")
    = [zr 151 200].
Proof. by vm_compute. Qed.

(** C10, amended. For a series whose key is not the name of a member of
    [Object.prototype] and whose observations are well formed (strictly
    ascending, a boundary point at index 0 only, as [add] leaves them),
    [add] with an empty list of observations returns, leaves the
    observations as they are and replaces the covered ranges by the
    compaction of the old ones with the range, the other series being
    untouched; this is what the coordinator does with an empty answer of
    the adapter, for the range the fetch reports (the gap with its end cut
    at the clock reading); when the ranges at hand are ordered, every
    instant of that range is covered afterwards and is in no gap computed
    later, whatever the window. *)
Theorem add_nothing_still_covers (c : Cache) (entity : EntityConfig)
  (key : string) (r : TimestampRange) :
  getEntityKey entity = Some key →
  inherited key = false →
  history_ok (default [] (histories c !! key)) →
  ∃ c' : Cache,
    add c entity [] r = Some c'
    ∧ getHistory c entity = Some (default [] (histories c !! key))
    ∧ getHistory c' entity = getHistory c entity
    ∧ covered_of c' key = compactRanges (covered_of c key ++ [r])
    ∧ (∀ k, k ≠ key →
         covered_of c' k = covered_of c k
         ∧ histories c' !! k = histories c !! k)
    ∧ (∀ (now : Z) (t : Task),
         t_entity t = entity → recorded t = r →
         settle_task now t (Some []) c
         = (c', (next_fetch now (t_op t) (t_args t) entity (t_rest t)).1,
            Merged (t_op t) entity r
              :: (next_fetch now (t_op t) (t_args t) entity (t_rest t)).2))
    ∧ (Forall ordered (covered_of c key) → ordered r →
       ∀ x : Z, in_range x r →
         in_ranges x (covered_of c' key)
         ∧ ∀ window : TimestampRange,
             ¬ in_ranges x (subtractRanges [window] (covered_of c' key))).
Proof.
  intros Hkey Hinh Hok.
  destruct (add_is_Some c entity key [] r Hkey) as [c' Hadd].
  exists c'. split; [done|].
  destruct (add_covered_of _ _ _ _ _ _ Hkey Hadd) as [Hcov Hother].
  pose proof Hadd as Hadd'. unfold add in Hadd'. rewrite Hkey in Hadd'.
  simpl in Hadd'. injection Hadd' as Hc'.
  assert (getHistory c entity = Some (default [] (histories c !! key)))
    as Hread.
  { unfold getHistory. rewrite Hkey. simpl.
    destruct (histories c !! key); [done|]. by rewrite Hinh. }
  split; [done|]. split; [|split; [done|split; [|split]]].
  - rewrite Hread. unfold getHistory. rewrite Hkey. simpl. rewrite <- Hc'.
    simpl. rewrite lookup_insert_eq. f_equal. by apply merge_history_nil.
  - intros k Hk. split; [by apply Hother|].
    rewrite <- Hc'. simpl. by rewrite lookup_insert_ne.
  - intros now t Ht Hrec. unfold settle_task, resume_task.
    unfold recorded in Hrec. destruct (t_gap t) as [startT endT].
    simpl in *. rewrite Ht, Hrec, Hadd.
    by destruct (next_fetch now (t_op t) (t_args t) entity (t_rest t)).
  - intros Hord Hr x Hx.
    assert (in_ranges x (covered_of c' key)) as Hin.
    { rewrite Hcov, compactRanges_points, in_ranges_app, in_ranges_singleton.
      by right. }
    split; [done|]. intros window Hgap.
    apply subtractRanges_points in Hgap as [_ Hno]; [done|].
    rewrite Hcov. apply separated_disjoint, compactRanges_separated.
    apply Forall_app. split; [done|by repeat constructor].
Qed.

(** ** An update called twice *)



Lemma sentinels_disjoint r :
  finite r → ordered r →
  disjoint_sorted [(NegInf, Num.pred r.1); (Num.succ r.2, PosInf)].
Proof.
  intros Hfin Hord. split.
  - repeat constructor; revert Hfin; clear; range_lia.
  - repeat constructor. revert Hfin Hord. clear. range_lia.
Qed.

Lemma removeOutsideRange_covered_of c r key :
  covered_of (removeOutsideRange c r) key
  = subtractRanges (covered_of c key)
      [(NegInf, Num.pred r.1); (Num.succ r.2, PosInf)].
Proof.
  unfold covered_of, removeOutsideRange, mapValues. simpl.
  rewrite lookup_fmap. by destruct (ranges c !! key).
Qed.




Lemma resume_task_eq now t states c :
  resume_task now t states c
  = match add c (t_entity t) (mark_boundary states) (recorded t) with
    | Some c' =>
        (c',
         (next_fetch now (t_op t) (t_args t) (t_entity t) (t_rest t)).1,
         Merged (t_op t) (t_entity t) (recorded t)
           :: (next_fetch now (t_op t) (t_args t) (t_entity t) (t_rest t)).2)
    | None => (c, Rejected, [])
    end.
Proof.
  unfold resume_task, recorded. destruct (t_gap t) as [startT endT]. simpl.
  destruct (add c (t_entity t) (mark_boundary states) _); [|done].
  by destruct (next_fetch now (t_op t) (t_args t) (t_entity t) (t_rest t)).
Qed.



(** While the only update ever called is [u], over a finite ordered range
    and series with well-formed descriptors. *)
Section single_update.

Variable u : UpdateArgs.
Hypothesis Hfinite : finite (u_range u).
Hypothesis Hordered : ordered (u_range u).
Hypothesis Hkeys : Forall (λ e, is_Some (getEntityKey e)) (u_entities u).













End single_update.



Lemma omap_running_done n : omap running_task (replicate n Done) = [].
Proof. induction n; simpl; auto. Qed.





(** ** The amended statements on sample inputs *)



Lemma stored_ranges_ordered_witness :
  (zr 100 200).1 <=! (zr 100 200).2.
Proof.
  apply (stored_ranges_ordered
           [CallUpdate {| u_range := zr 100 200; u_removeOutsideRange := false;
                          u_entities := [sensor_b];
                          u_significant_changes_only := true;
                          u_minimal_response := true |} 1000;
            Answer (OfCurrent 0) (Some [obs 99; obs 120]) 1001]
           "sensor.b" (zr 100 200)).
  - repeat constructor.
  - intros op call Hin. vm_compute in Hin.
    repeat (apply elem_of_cons in Hin as [Hin|Hin]; [try discriminate|]).
    + injection Hin as -> ->. reflexivity.
    + by apply elem_of_nil in Hin.
  - vm_compute. apply list_elem_of_here.
Defined.

Lemma add_nothing_still_covers_witness :
  let c := add_call empty_cache (sensor_a, obs <$> [100; 120], zr 100 150) in
  let t := {| t_op := 0;
              t_args := {| u_range := zr 100 200;
                           u_removeOutsideRange := false;
                           u_entities := [sensor_a];
                           u_significant_changes_only := true;
                           u_minimal_response := true |};
              t_entity := sensor_a; t_gap := zr 151 200; t_now := 1000;
              t_rest := [] |} in
  ∃ c' : Cache,
    add c sensor_a [] (zr 151 200) = Some c'
    ∧ getHistory c sensor_a = Some (obs <$> [100; 120])
    ∧ getHistory c' sensor_a = Some (obs <$> [100; 120])
    ∧ covered_of c "sensor.a" = [zr 100 150]
    ∧ covered_of c' "sensor.a" = [zr 100 200]
    ∧ settle_task 1001 t (Some []) c
      = (c', Done, [Merged 0 sensor_a (zr 151 200)])
    ∧ in_ranges 160 (covered_of c' "sensor.a")
    ∧ ∀ window : TimestampRange,
        ¬ in_ranges 160 (subtractRanges [window] (covered_of c' "sensor.a")).
Proof.
  intros c t.
  assert (history_ok (default [] (histories c !! "sensor.a"))) as Hok.
  { change (history_ok (merge_history [] (obs <$> [100; 120]))).
    apply merge_history_ok. }
  destruct (add_nothing_still_covers c sensor_a "sensor.a" (zr 151 200)
              eq_refl eq_refl Hok)
    as (c' & Hadd & Hread & Hsame & Hcov & _ & Hsettle & Hlater).
  exists c'. split; [exact Hadd|]. split; [exact Hread|].
  split; [rewrite Hsame; exact Hread|]. split; [reflexivity|].
  split; [rewrite Hcov; reflexivity|].
  split; [exact (Hsettle 1001 t eq_refl eq_refl)|].
  apply (Hlater ltac:(repeat constructor) eq_refl 160).
  split; reflexivity.
Defined.

(** * Further properties of the code *)

(** ** What [add] does to the observations of a series *)

Lemma sort_by_timestamp_elem x l : x ∈ sort_by_timestamp l ↔ x ∈ l.
Proof.
  induction l as [|y l IH]; simpl; [done|].
  rewrite insert_by_timestamp_elem, elem_of_cons, IH. tauto.
Qed.

Lemma merge_history_cons_form old states :
  merge_history old states
  = match sort_by_timestamp (old ++ states) with
    | [] => []
    | x :: l =>
        x :: dedup_after (timestamp x)
               (filter (λ y, fake_boundary_datapoint y = false) l)
    end.
Proof.
  unfold merge_history.
  destruct (sort_by_timestamp (old ++ states)) as [|x l]; [done|].
  by rewrite first_pass_cons, last_pass_cons.
Qed.

Lemma getHistory_held c entity key h :
  getEntityKey entity = Some key → getHistory c entity = Some h →
  default [] (histories c !! key) = h.
Proof.
  unfold getHistory. intros ->. simpl.
  destruct (histories c !! key); simpl; [congruence|].
  destruct (inherited key); congruence.
Qed.

Lemma add_getHistory c entity states r c' h :
  add c entity states r = Some c' → getHistory c entity = Some h →
  ∃ old, getHistory c entity = Some old
         ∧ getHistory c' entity = Some (merge_history old states).
Proof.
  intros Hadd Hh. exists h. split; [done|]. unfold add in Hadd.
  destruct (getEntityKey entity) as [key|] eqn:Hkey; [|done].
  simpl in Hadd. injection Hadd as <-.
  rewrite (getHistory_held _ _ _ _ Hkey Hh).
  unfold getHistory. rewrite Hkey. simpl. by rewrite lookup_insert_eq.
Qed.

Lemma merge_history_elem x old states :
  x ∈ merge_history old states → x ∈ old ∨ x ∈ states.
Proof.
  rewrite merge_history_cons_form. intros Hx.
  apply elem_of_app, sort_by_timestamp_elem.
  destruct (sort_by_timestamp (old ++ states)) as [|y l];
    [by apply elem_of_nil in Hx|].
  apply elem_of_cons in Hx as [->|Hx]; [apply elem_of_cons; by left|].
  apply elem_of_cons. right.
  eapply elem_of_sublist in Hx; [|apply dedup_after_sublist].
  by apply list_elem_of_filter in Hx as [_ Hx].
Qed.

(** X1. [add] makes up no observation: whatever the series holds after
    [add] was held before or is one of the observations added. *)
Theorem add_no_new_observation (c c' : Cache) (entity : EntityConfig)
  (states old new : list EntityState) (r : TimestampRange)
  (x : EntityState) :
  add c entity states r = Some c' →
  getHistory c entity = Some old → getHistory c' entity = Some new →
  x ∈ new → x ∈ old ∨ x ∈ states.
Proof.
  intros Hadd Hold Hnew Hx.
  destruct (add_getHistory _ _ _ _ _ _ Hadd Hold) as (old' & Hold' & Hnew').
  rewrite Hold in Hold'. rewrite Hnew in Hnew'.
  injection Hold' as <-. injection Hnew' as ->.
  by apply merge_history_elem.
Qed.

Lemma add_no_new_observation_witness :
  obs 120 ∈ [obs 100] ∨ obs 120 ∈ [obs 120; obs 100].
Proof.
  destruct (add empty_cache sensor_a [obs 100] (zr 100 200)) as [c1|] eqn:H1;
    [|discriminate].
  destruct (add c1 sensor_a [obs 120; obs 100] (zr 100 200)) as [c2|] eqn:H2;
    [|by vm_compute in H1; injection H1 as <-].
  apply (add_no_new_observation c1 c2 sensor_a [obs 120; obs 100]
           [obs 100] [obs 100; obs 120] (zr 100 200) (obs 120) H2).
  - vm_compute in H1. injection H1 as <-. reflexivity.
  - vm_compute in H1. injection H1 as <-.
    vm_compute in H2. injection H2 as <-. reflexivity.
  - apply elem_of_cons. right. apply list_elem_of_here.
Defined.

Lemma sort_by_timestamp_head x l old :
  sort_by_timestamp old = x :: l → ∀ y, y ∈ old → timestamp x <= timestamp y.
Proof.
  intros Hsort y Hy. apply sort_by_timestamp_elem in Hy.
  pose proof (sort_by_timestamp_sorted old) as Hs. rewrite Hsort in Hs, Hy.
  apply StronglySorted_cons in Hs as [Hx _]. rewrite Forall_forall in Hx.
  apply elem_of_cons in Hy as [->|Hy]; [lia|by apply Hx].
Qed.

(** X2. A boundary point survives [add] only at the very start of the
    series: an observation that is flagged after [add] is not later than
    any observation the series held or was given. *)
Theorem add_keeps_boundary_only_if_earliest (c c' : Cache)
  (entity : EntityConfig) (states old new : list EntityState)
  (r : TimestampRange) (x y : EntityState) :
  add c entity states r = Some c' →
  getHistory c entity = Some old → getHistory c' entity = Some new →
  x ∈ new → fake_boundary_datapoint x = true →
  y ∈ old ++ states → timestamp x <= timestamp y.
Proof.
  intros Hadd Hold Hnew Hx Hflag Hy.
  destruct (add_getHistory _ _ _ _ _ _ Hadd Hold) as (old' & Hold' & Hnew').
  rewrite Hold in Hold'. rewrite Hnew in Hnew'.
  injection Hold' as <-. injection Hnew' as ->.
  rewrite merge_history_cons_form in Hx.
  destruct (sort_by_timestamp (old ++ states)) as [|x0 l] eqn:Hsort;
    [by apply elem_of_nil in Hx|].
  apply elem_of_cons in Hx as [->|Hx]; [by eapply sort_by_timestamp_head|].
  eapply elem_of_sublist in Hx; [|apply dedup_after_sublist].
  apply list_elem_of_filter in Hx as [Hno _]. congruence.
Qed.

Lemma add_keeps_boundary_only_if_earliest_witness :
  timestamp (mkEntityState 99 "on" true) <= timestamp (obs 120).
Proof.
  apply (add_keeps_boundary_only_if_earliest empty_cache
           (add_call empty_cache
              (sensor_a, [mkEntityState 99 "on" true; obs 120], zr 100 200))
           sensor_a [mkEntityState 99 "on" true; obs 120] []
           [mkEntityState 99 "on" true; obs 120] (zr 100 200)
           (mkEntityState 99 "on" true) (obs 120)).
  - reflexivity.
  - reflexivity.
  - by vm_compute.
  - apply list_elem_of_here.
  - reflexivity.
  - apply elem_of_cons. right. apply list_elem_of_here.
Defined.

Lemma dedup_after_timestamps p l y :
  y ∈ l →
  timestamp y = p ∨ timestamp y ∈ (timestamp <$> dedup_after p l).
Proof.
  revert p. induction l as [|a l IH]; intros p Hy;
    [by apply elem_of_nil in Hy|].
  simpl. apply elem_of_cons in Hy as [->|Hy].
  - case_bool_decide; [by left|]. right. rewrite fmap_cons.
    apply elem_of_cons. by left.
  - destruct (IH (timestamp a) Hy) as [Heq|Hin].
    + case_bool_decide; [left; congruence|].
      right. rewrite fmap_cons. apply elem_of_cons. by left.
    + case_bool_decide; [by right|].
      right. rewrite fmap_cons. apply elem_of_cons. by right.
Qed.

(** X3. [add] loses no timestamp of a real observation: the timestamp of
    every observation, held before or added, that is not flagged as a
    boundary point is the timestamp of an observation of the series after
    [add]. *)
Theorem add_keeps_real_timestamps (c c' : Cache) (entity : EntityConfig)
  (states old new : list EntityState) (r : TimestampRange)
  (x : EntityState) :
  add c entity states r = Some c' →
  getHistory c entity = Some old → getHistory c' entity = Some new →
  x ∈ old ++ states → fake_boundary_datapoint x = false →
  timestamp x ∈ (timestamp <$> new).
Proof.
  intros Hadd Hold Hnew Hx Hflag.
  destruct (add_getHistory _ _ _ _ _ _ Hadd Hold) as (old' & Hold' & Hnew').
  rewrite Hold in Hold'. rewrite Hnew in Hnew'.
  injection Hold' as <-. injection Hnew' as ->.
  rewrite merge_history_cons_form.
  apply sort_by_timestamp_elem in Hx.
  destruct (sort_by_timestamp (old ++ states)) as [|x0 l];
    [by apply elem_of_nil in Hx|].
  rewrite fmap_cons.
  apply elem_of_cons in Hx as [->|Hx]; [apply elem_of_cons; by left|].
  assert (x ∈ filter (λ y, fake_boundary_datapoint y = false) l) as Hx'
    by by apply list_elem_of_filter.
  apply elem_of_cons.
  destruct (dedup_after_timestamps (timestamp x0) _ _ Hx'); auto.
Qed.

Lemma add_keeps_real_timestamps_witness :
  timestamp (obs 120) ∈ (timestamp <$> [obs 100; obs 120]).
Proof.
  apply (add_keeps_real_timestamps
           (add_call empty_cache (sensor_a, [obs 100], zr 100 200))
           (add_call (add_call empty_cache (sensor_a, [obs 100], zr 100 200))
              (sensor_a, [obs 120; obs 100], zr 100 200))
           sensor_a [obs 120; obs 100] [obs 100] [obs 100; obs 120]
           (zr 100 200) (obs 120)).
  - reflexivity.
  - by vm_compute.
  - by vm_compute.
  - apply elem_of_cons. right. apply list_elem_of_here.
  - reflexivity.
Defined.

(** The sort is stable: an element whose timestamp none of its predecessors
    has comes out after elements of smaller timestamps only. *)
Lemma insert_by_timestamp_split x l :
  ∃ pre post,
    insert_by_timestamp x l = pre ++ x :: post
    ∧ Forall (λ y, timestamp y < timestamp x) pre.
Proof.
  induction l as [|y l (pre & post & Heq & Hpre)]; simpl.
  - by exists [], [].
  - destruct (Z.leb_spec (timestamp x) (timestamp y)).
    + by exists [], (y :: l).
    + exists (y :: pre), post. rewrite Heq. split; [done|].
      constructor; [lia|done].
Qed.

Lemma insert_by_timestamp_other a x pre post :
  timestamp a ≠ timestamp x →
  Forall (λ y, timestamp y < timestamp x) pre →
  ∃ pre' post',
    insert_by_timestamp a (pre ++ x :: post) = pre' ++ x :: post'
    ∧ Forall (λ y, timestamp y < timestamp x) pre'.
Proof.
  intros Hne. induction 1 as [|y pre Hy Hpre (pre' & post' & Heq & Hpre')];
    simpl.
  - destruct (Z.leb_spec (timestamp a) (timestamp x)).
    + exists [a], post. split; [done|]. constructor; [lia|constructor].
    + exists [], (insert_by_timestamp a post). by split.
  - destruct (Z.leb_spec (timestamp a) (timestamp y)).
    + exists (a :: y :: pre), post. split; [done|].
      constructor; [lia|]. by constructor.
    + exists (y :: pre'), post'. rewrite Heq. split; [done|].
      by constructor.
Qed.

Lemma sort_by_timestamp_stable l1 x l2 :
  Forall (λ a, timestamp a ≠ timestamp x) l1 →
  ∃ pre post,
    sort_by_timestamp (l1 ++ x :: l2) = pre ++ x :: post
    ∧ Forall (λ y, timestamp y < timestamp x) pre.
Proof.
  induction 1 as [|a l1 Ha Hl1 (pre & post & Heq & Hpre)].
  - apply insert_by_timestamp_split.
  - change (sort_by_timestamp ((a :: l1) ++ x :: l2))
      with (insert_by_timestamp a (sort_by_timestamp (l1 ++ x :: l2))).
    rewrite Heq. by apply insert_by_timestamp_other.
Qed.

Lemma dedup_after_keeps p pre x post :
  p < timestamp x → Forall (λ y, timestamp y < timestamp x) pre →
  x ∈ dedup_after p (pre ++ x :: post).
Proof.
  intros Hp Hpre. revert p Hp.
  induction Hpre as [|a pre Ha Hpre IH]; intros p Hp; simpl.
  - rewrite bool_decide_eq_false_2 by lia. apply list_elem_of_here.
  - case_bool_decide; [by apply IH|].
    apply elem_of_cons. right. by apply IH.
Qed.

Lemma merge_history_keeps l1 x l2 old states :
  old ++ states = l1 ++ x :: l2 →
  Forall (λ a, timestamp a ≠ timestamp x) l1 →
  fake_boundary_datapoint x = false →
  x ∈ merge_history old states.
Proof.
  intros Heq Hl1 Hflag. rewrite merge_history_cons_form, Heq.
  destruct (sort_by_timestamp_stable l1 x l2 Hl1) as (pre & post & -> & Hpre).
  destruct pre as [|p pre]; simpl; [apply list_elem_of_here|].
  apply Forall_cons in Hpre as [Hp Hpre].
  apply elem_of_cons. right. rewrite filter_app, filter_cons_True by done.
  apply dedup_after_keeps; [done|].
  rewrite Forall_forall in Hpre. apply Forall_forall.
  intros y [_ Hy]%list_elem_of_filter. by apply Hpre.
Qed.

(** X4. A cached real observation wins: when the series is strictly
    ascending, every observation it holds that is not flagged as a boundary
    point is still held after [add], whatever is added, an added
    observation of the same timestamp being the one dropped. *)
Theorem add_keeps_cached_observation (c c' : Cache) (entity : EntityConfig)
  (states old new : list EntityState) (r : TimestampRange)
  (x : EntityState) :
  add c entity states r = Some c' →
  getHistory c entity = Some old → getHistory c' entity = Some new →
  ascending old → x ∈ old → fake_boundary_datapoint x = false →
  x ∈ new.
Proof.
  intros Hadd Hold Hnew Hasc Hx Hflag.
  destruct (add_getHistory _ _ _ _ _ _ Hadd Hold) as (old' & Hold' & Hnew').
  rewrite Hold in Hold'. rewrite Hnew in Hnew'.
  injection Hold' as <-. injection Hnew' as ->.
  apply list_elem_of_split in Hx as (l1 & l2 & ->).
  apply (merge_history_keeps l1 x (l2 ++ states));
    [by rewrite <- app_assoc| |done].
  apply Forall_forall. intros a [i Hi]%list_elem_of_lookup.
  assert (timestamp a < timestamp x); [|lia].
  apply (Hasc i (length l1)).
  - by apply lookup_app_l_Some.
  - by rewrite list_lookup_middle.
  - by eapply lookup_lt_Some.
Qed.

Lemma ascending_singleton x : ascending [x].
Proof.
  intros i [|j] a b Hi Hj Hij; [lia|].
  simpl in Hj. by rewrite lookup_nil in Hj.
Qed.

Lemma add_keeps_cached_observation_witness :
  obs 100 ∈ [obs 100; obs 120].
Proof.
  apply (add_keeps_cached_observation
           (add_call empty_cache (sensor_a, [obs 100], zr 100 200))
           (add_call (add_call empty_cache (sensor_a, [obs 100], zr 100 200))
              (sensor_a, [obs 120; mkEntityState 100 "off" false],
               zr 100 200))
           sensor_a [obs 120; mkEntityState 100 "off" false]
           [obs 100] [obs 100; obs 120] (zr 100 200) (obs 100)).
  - reflexivity.
  - by vm_compute.
  - by vm_compute.
  - apply ascending_singleton.
  - apply list_elem_of_here.
  - reflexivity.
Defined.

(** ** Series are independent *)

Lemma add_call_other c call key :
  getEntityKey call.1.1 ≠ Some key →
  histories (add_call c call) !! key = histories c !! key
  ∧ ranges (add_call c call) !! key = ranges c !! key.
Proof.
  intros Hne. unfold add_call, add.
  destruct (getEntityKey call.1.1) as [k|]; [|done]. simpl.
  rewrite !lookup_insert_ne by congruence. done.
Qed.

Lemma add_call_same c1 c2 call key :
  getEntityKey call.1.1 = Some key →
  histories c1 !! key = histories c2 !! key →
  ranges c1 !! key = ranges c2 !! key →
  histories (add_call c1 call) !! key = histories (add_call c2 call) !! key
  ∧ ranges (add_call c1 call) !! key = ranges (add_call c2 call) !! key.
Proof.
  intros Hkey Hh Hr. unfold add_call, add. rewrite Hkey. simpl.
  by rewrite !lookup_insert_eq, Hh, Hr.
Qed.

Lemma add_all_agree calls c1 c2 key :
  histories c1 !! key = histories c2 !! key →
  ranges c1 !! key = ranges c2 !! key →
  histories (add_all c1 calls) !! key
  = histories (add_all c2 (calls_for key calls)) !! key
  ∧ ranges (add_all c1 calls) !! key
    = ranges (add_all c2 (calls_for key calls)) !! key.
Proof.
  revert c1 c2. induction calls as [|call calls IH]; intros c1 c2 Hh Hr.
  - done.
  - unfold calls_for. rewrite filter_cons. simpl. case_decide as Hkey.
    + simpl. destruct (add_call_same c1 c2 call key Hkey Hh Hr).
      by apply IH.
    + destruct (add_call_other c1 call key Hkey) as [Hh' Hr'].
      apply IH; congruence.
Qed.

(** X5. Series do not interfere: after any sequence of calls of [add], what
    the cache holds for a series, observations and covered ranges, is what
    it would hold had only the calls for that series been made. *)
Theorem add_all_series_independent (c : Cache) (calls : list AddCall)
  (entity : EntityConfig) (key : string) :
  getEntityKey entity = Some key →
  getHistory (add_all c calls) entity
  = getHistory (add_all c (calls_for key calls)) entity
  ∧ covered_of (add_all c calls) key
    = covered_of (add_all c (calls_for key calls)) key.
Proof.
  intros Hkey.
  destruct (add_all_agree calls c c key eq_refl eq_refl) as [Hh Hr].
  unfold getHistory, covered_of. rewrite Hkey. simpl. by rewrite Hh, Hr.
Qed.

Lemma add_all_series_independent_witness :
  getHistory
    (add_all empty_cache
       [(sensor_a, [obs 100], zr 100 200); (sensor_b, [obs 7], zr 0 10);
        (sensor_a, [obs 120], zr 100 200)]) sensor_a
  = getHistory
      (add_all empty_cache
         (calls_for "sensor.a"
            [(sensor_a, [obs 100], zr 100 200); (sensor_b, [obs 7], zr 0 10);
             (sensor_a, [obs 120], zr 100 200)])) sensor_a.
Proof.
  apply (add_all_series_independent empty_cache
           [(sensor_a, [obs 100], zr 100 200); (sensor_b, [obs 7], zr 0 10);
            (sensor_a, [obs 120], zr 100 200)] sensor_a "sensor.a").
  reflexivity.
Defined.

(** ** What [removeOutsideRange] does to the observations of a series *)

Lemma removeOutsideRange_getHistory c r entity :
  getHistory (removeOutsideRange c r) entity
  = trim_history r <$> getHistory c entity.
Proof.
  unfold getHistory, removeOutsideRange, mapValues.
  destruct (getEntityKey entity) as [key|]; [|done]. simpl.
  rewrite lookup_fmap.
  destruct (histories c !! key); simpl; [done|]. by destruct (inherited key).
Qed.

(** The filter of [removeOutsideRange], whatever [first] and [last] are when
    it starts: [first] ends as the last observation at or before the start,
    and the observations after the start are all kept but the one, if any,
    that [last] is set to. *)
Lemma trim_filter_spec r h first last0 :
  (trim_filter r h first last0).1.2
  = match last (up_to_start r h) with Some d => Some d | None => first end
  ∧ match last0 with
    | Some _ =>
        (trim_filter r h first last0).2 = last0
        ∧ (trim_filter r h first last0).1.1 = after_start r h
    | None =>
        option_list (trim_filter r h first last0).2
          ++ (trim_filter r h first last0).1.1 ≡ₚ after_start r h
    end.
Proof.
  unfold up_to_start, after_start. revert first last0.
  induction h as [|x h IH]; intros first last0.
  - simpl. split; [done|]. by destruct last0.
  - cbn [trim_filter]. rewrite !filter_cons.
    destruct (Num.leb (Fin (timestamp x)) r.1) eqn:Hle.
    + rewrite decide_True, decide_False by done.
      destruct (IH (Some x) last0) as [Hf Hk]. split; [|done].
      rewrite Hf, last_cons. by destruct (last _).
    + rewrite decide_False, decide_True by done.
      destruct last0 as [d|].
      * cbn. destruct (IH first (Some d)) as (Hf & Hl & Hk).
        destruct (trim_filter r h first (Some d)) as [[kept f] l].
        simpl in *. by subst.
      * cbn. destruct (Num.leb r.2 (Fin (timestamp x))).
        -- destruct (IH first (Some x)) as (Hf & Hl & Hk).
           split; [done|]. by rewrite Hl, Hk.
        -- destruct (IH first None) as (Hf & Hk).
           destruct (trim_filter r h first None) as [[kept f] l].
           simpl in *. split; [done|].
           by rewrite <- Hk, Permutation_middle.
Qed.

Lemma trim_history_eq r h :
  trim_history r h
  = option_list (trim_filter r h None None).1.2
      ++ (trim_filter r h None None).1.1
      ++ option_list (trim_filter r h None None).2.
Proof.
  unfold trim_history.
  destruct (trim_filter r h None None) as [[kept [f|]] [l|]]; simpl;
    by rewrite ?app_nil_r.
Qed.

(** X6. What [removeOutsideRange] removes from a series: the observations
    at or before the start of the range, but for the last of them; every
    observation after the start is kept, those beyond the end included, the
    result being a rearrangement of the left anchor and of them. *)
Theorem removeOutsideRange_removes_left_only (c : Cache)
  (r : TimestampRange) (entity : EntityConfig) (h : list EntityState) :
  getHistory c entity = Some h →
  ∃ h' : list EntityState,
    getHistory (removeOutsideRange c r) entity = Some h'
    ∧ h' ≡ₚ left_anchor r h ++ after_start r h.
Proof.
  intros Hh. rewrite removeOutsideRange_getHistory, Hh. simpl.
  eexists. split; [done|]. rewrite trim_history_eq.
  destruct (trim_filter_spec r h None None) as [Hf Hk].
  unfold left_anchor. rewrite Hf.
  assert (match last (up_to_start r h) with
          | Some d => Some d | None => None end = last (up_to_start r h))
    as -> by by destruct (last _).
  apply Permutation_app_head. rewrite <- Hk. apply Permutation_app_comm.
Qed.

Lemma removeOutsideRange_removes_left_only_witness :
  ∃ h' : list EntityState,
    getHistory
      (removeOutsideRange
         (add_call empty_cache
            (sensor_a, obs <$> [5; 60; 100; 160; 300], zr 0 400))
         (zr 50 150)) sensor_a = Some h'
    ∧ h' ≡ₚ left_anchor (zr 50 150) (obs <$> [5; 60; 100; 160; 300])
            ++ after_start (zr 50 150) (obs <$> [5; 60; 100; 160; 300]).
Proof.
  apply (removeOutsideRange_removes_left_only
           (add_call empty_cache
              (sensor_a, obs <$> [5; 60; 100; 160; 300], zr 0 400))
           (zr 50 150) sensor_a (obs <$> [5; 60; 100; 160; 300])).
  by vm_compute.
Defined.

Lemma only_last_at_end_cons r x h :
  only_last_at_end r (x :: h) → only_last_at_end r h.
Proof.
  intros Hlast i y Hi Hy. specialize (Hlast (S i) y Hi Hy).
  simpl in Hlast. lia.
Qed.

Lemma trim_filter_exact r h first :
  only_last_at_end r h →
  (trim_filter r h first None).1.1 ++ option_list (trim_filter r h first None).2
  = after_start r h.
Proof.
  unfold after_start. revert first.
  induction h as [|x h IH]; intros first Hlast; [done|].
  cbn [trim_filter]. rewrite filter_cons.
  pose proof (only_last_at_end_cons _ _ _ Hlast) as Hlast'.
  destruct (Num.leb (Fin (timestamp x)) r.1) eqn:Hle.
  - rewrite decide_False by done. by apply IH.
  - rewrite decide_True by done. cbn.
    destruct (Num.leb r.2 (Fin (timestamp x))) eqn:Hend.
    + specialize (Hlast 0%nat x eq_refl Hend). destruct h; [done|].
      simpl in Hlast. lia.
    + specialize (IH first Hlast').
      destruct (trim_filter r h first None) as [[kept f] l].
      simpl in *. by rewrite IH.
Qed.

Lemma filter_none {A} (P : A → Prop) `{∀ x, Decision (P x)} (l : list A) :
  (∀ x, x ∈ l → ¬ P x) → filter P l = [].
Proof.
  induction l as [|x l IH]; intros Hnone; [done|].
  rewrite filter_cons, decide_False by (apply Hnone, elem_of_cons; by left).
  apply IH. intros y Hy. apply Hnone, elem_of_cons. by right.
Qed.

(** In a sorted sequence the observations at or before the start come
    first. *)
Lemma sorted_split_at_start r h :
  StronglySorted ts_le h → h = up_to_start r h ++ after_start r h.
Proof.
  unfold up_to_start, after_start.
  induction 1 as [|x h Hs IH Hx]; [done|].
  rewrite !filter_cons.
  destruct (Num.leb (Fin (timestamp x)) r.1) eqn:Hle.
  - rewrite decide_True, decide_False by done. simpl. by f_equal.
  - rewrite decide_False, decide_True by done.
    rewrite Forall_forall in Hx.
    rewrite filter_none, filter_all; [done| |].
    + intros y Hy. specialize (Hx y Hy). unfold ts_le in Hx.
      revert Hle Hx. generalize (timestamp x) (timestamp y). clear.
      range_lia.
    + intros y Hy. specialize (Hx y Hy). unfold ts_le in Hx.
      revert Hle Hx. generalize (timestamp x) (timestamp y). clear.
      range_lia.
Qed.

Lemma history_ok_drop n h : history_ok h → history_ok (drop n h).
Proof.
  intros (Hasc & _ & Hflag).
  assert (ascending (drop n h)) as Hasc'.
  { intros i j x y Hi Hj Hij. rewrite lookup_drop in Hi, Hj.
    apply (Hasc (n + i)%nat (n + j)%nat); [done|done|lia]. }
  split; [done|]. split; [by apply ascending_NoDup|].
  intros i x Hi Hx. rewrite lookup_drop in Hi.
  specialize (Hflag _ _ Hi Hx). lia.
Qed.

Lemma anchored_suffix r h :
  StronglySorted ts_le h →
  ∃ n, left_anchor r h ++ after_start r h = drop n h.
Proof.
  intros Hs. pose proof (sorted_split_at_start r h Hs) as Hsplit.
  unfold left_anchor.
  destruct (up_to_start r h) as [|d l _] using rev_ind.
  - exists 0%nat. by rewrite Hsplit at 2.
  - exists (length l). rewrite last_snoc. simpl.
    rewrite Hsplit at 2. rewrite <- app_assoc, drop_app_length. done.
Qed.

Lemma ascending_sorted_le h : ascending h → StronglySorted ts_le h.
Proof.
  intros Hasc. apply ascending_sorted_lt in Hasc.
  induction Hasc as [|x l Hl IH Hx]; constructor; [done|].
  eapply Forall_impl; [exact Hx|]. unfold ts_lt, ts_le. intros; lia.
Qed.

(** X7. When the series is well formed and no observation but the last one
    is at or after the end of the range, [removeOutsideRange] leaves the
    last observation at or before the start followed by the observations
    after the start, in their order, and the series is still well
    formed. *)
Theorem removeOutsideRange_trims_left (c : Cache) (r : TimestampRange)
  (entity : EntityConfig) (h : list EntityState) :
  getHistory c entity = Some h → history_ok h → only_last_at_end r h →
  getHistory (removeOutsideRange c r) entity
  = Some (left_anchor r h ++ after_start r h)
  ∧ history_ok (left_anchor r h ++ after_start r h).
Proof.
  intros Hh Hok Hlast. split.
  - rewrite removeOutsideRange_getHistory, Hh. simpl. f_equal.
    rewrite trim_history_eq.
    destruct (trim_filter_spec r h None None) as [Hf _].
    rewrite Hf, (trim_filter_exact r h None Hlast). unfold left_anchor.
    by destruct (last (up_to_start r h)).
  - destruct Hok as (Hasc & Hdup & Hflag).
    destruct (anchored_suffix r h (ascending_sorted_le h Hasc)) as [n ->].
    by apply history_ok_drop.
Qed.

Lemma removeOutsideRange_trims_left_witness :
  getHistory
    (removeOutsideRange
       (add_call empty_cache (sensor_a, obs <$> [5; 40; 60; 100; 160], zr 0 400))
       (zr 50 150)) sensor_a
  = Some (left_anchor (zr 50 150) (obs <$> [5; 40; 60; 100; 160])
            ++ after_start (zr 50 150) (obs <$> [5; 40; 60; 100; 160]))
  ∧ history_ok (left_anchor (zr 50 150) (obs <$> [5; 40; 60; 100; 160])
                  ++ after_start (zr 50 150) (obs <$> [5; 40; 60; 100; 160])).
Proof.
  apply (removeOutsideRange_trims_left
           (add_call empty_cache
              (sensor_a, obs <$> [5; 40; 60; 100; 160], zr 0 400))
           (zr 50 150) sensor_a (obs <$> [5; 40; 60; 100; 160])).
  - by vm_compute.
  - change (history_ok (merge_history [] (obs <$> [5; 40; 60; 100; 160]))).
    apply merge_history_ok.
  - intros i x Hi Hx.
    do 4 (destruct i as [|i];
          [injection Hi as <-; vm_compute in Hx; discriminate|]).
    destruct i as [|i]; [reflexivity|]. simpl in Hi.
    by rewrite lookup_nil in Hi.
Defined.

(** ** The coordinator: clearing, failing, malformed descriptors *)

Lemma run_queue_nil now c orph tr next :
  run_queue now c orph tr next []
  = {| cache := c; current := None; orphans := orph; queue := [];
       next_op := next; trace := tr |}.
Proof. done. Qed.




Lemma run_queue_trace_app q now c orph tr next :
  ∃ rest, trace (run_queue now c orph tr next q) = tr ++ rest.
Proof.
  revert c orph tr. induction q as [|[op u] q IH]; intros c orph tr; simpl.
  - exists []. by rewrite app_nil_r.
  - destruct (start_update now op u c) as [[c' slots] acts].
    destruct (promise_all slots) as [ok|]; simpl.
    + destruct (IH c' (orph ++ omap running_task slots)
                  ((tr ++ Started op :: acts) ++ [Settled op ok]))
        as [rest ->].
      eexists. by rewrite <- !app_assoc.
    + by eexists.
Qed.

Lemma run_queue_starts_head now c orph tr next op u q :
  ∃ rest,
    trace (run_queue now c orph tr next ((op, u) :: q))
    = tr ++ Started op :: rest.
Proof.
  simpl. destruct (start_update now op u c) as [[c' slots] acts].
  destruct (promise_all slots) as [ok|]; simpl.
  - destruct (run_queue_trace_app q now c'
                (orph ++ omap running_task slots)
                ((tr ++ Started op :: acts) ++ [Settled op ok]) next)
      as [rest ->].
    eexists. rewrite <- !app_assoc. simpl. done.
  - by eexists.
Qed.

(** X9. A failed operation does not block the chain: when the adapter fails
    a fetch of the operation that holds [busy], that operation settles as
    rejected and the next operation chained on [busy] starts at once. *)
Theorem failed_update_lets_next_start (w : World) (op : nat)
  (slots : list Slot) (i : nat) (t : Task) (now : Z) (op' : nat)
  (u' : UpdateArgs) (q : list (nat * UpdateArgs)) :
  current w = Some (op, slots) → slots !! i = Some (Running t) →
  queue w = (op', u') :: q →
  ∃ rest : list Action,
    trace (respond w (OfCurrent i) None now)
    = trace w ++ Settled op false :: Started op' :: rest.
Proof.
  intros Hcur Hi Hq. unfold respond. rewrite Hcur, Hi.
  cbn [settle_task]. cbv beta iota.
  rewrite (promise_all_rejected slots i _ Hi), Hq.
  destruct (run_queue_starts_head now (cache w)
              (orphans w ++ omap running_task (<[i:=Rejected]> slots))
              ((trace w ++ []) ++ [Settled op false]) (next_op w) op' u' q)
    as [rest ->].
  exists rest. rewrite app_nil_r, <- app_assoc. done.
Qed.

Lemma failed_update_lets_next_start_witness :
  ∃ rest : list Action,
    trace
      (respond
         (run (init_world empty_cache)
            [CallUpdate
               {| u_range := zr 100 200; u_removeOutsideRange := false;
                  u_entities := [sensor_a];
                  u_significant_changes_only := true;
                  u_minimal_response := true |} 1000;
             CallUpdate
               {| u_range := zr 100 200; u_removeOutsideRange := false;
                  u_entities := [sensor_b];
                  u_significant_changes_only := true;
                  u_minimal_response := true |} 1000])
         (OfCurrent 0) None 1001)
    = [Started 0;
       Requested 0 (FetchStates sensor_a (zr 99 200) true true)]
      ++ Settled 0 false :: Started 1 :: rest.
Proof.
  apply (failed_update_lets_next_start
           (run (init_world empty_cache)
              [CallUpdate
                 {| u_range := zr 100 200; u_removeOutsideRange := false;
                    u_entities := [sensor_a];
                    u_significant_changes_only := true;
                    u_minimal_response := true |} 1000;
               CallUpdate
                 {| u_range := zr 100 200; u_removeOutsideRange := false;
                    u_entities := [sensor_b];
                    u_significant_changes_only := true;
                    u_minimal_response := true |} 1000])
           0
           [Running
              {| t_op := 0;
                 t_args :=
                   {| u_range := zr 100 200; u_removeOutsideRange := false;
                      u_entities := [sensor_a];
                      u_significant_changes_only := true;
                      u_minimal_response := true |};
                 t_entity := sensor_a; t_gap := zr 100 200;
                 t_now := 1000; t_rest := [] |}]
           0
           {| t_op := 0;
              t_args :=
                {| u_range := zr 100 200; u_removeOutsideRange := false;
                   u_entities := [sensor_a];
                   u_significant_changes_only := true;
                   u_minimal_response := true |};
              t_entity := sensor_a; t_gap := zr 100 200;
              t_now := 1000; t_rest := [] |}
           1001 1%nat
           {| u_range := zr 100 200; u_removeOutsideRange := false;
              u_entities := [sensor_b];
              u_significant_changes_only := true;
              u_minimal_response := true |} []).
  - by vm_compute.
  - reflexivity.
  - by vm_compute.
Defined.





(** ** No request for the future *)

Lemma fetch_window_ends_by now T entity g sig min :
  now <= T →
  (call_window (fetchSingleRange now entity g sig min).1).2 <=! Fin T.
Proof.
  intros Hnow. unfold fetchSingleRange. destruct g as [startT endT].
  destruct (isEntityIdStatisticsConfig entity); simpl;
    revert Hnow; clear; range_lia.
Qed.

Lemma next_fetch_ends_by now T op u entity gaps :
  now <= T → Forall (ends_by T) (next_fetch now op u entity gaps).2.
Proof.
  intros Hnow. destruct gaps as [|g gaps]; simpl; [constructor|].
  constructor; [|constructor]. by apply fetch_window_ends_by.
Qed.

Lemma start_tasks_ends_by now T op u entities c :
  now <= T → Forall (ends_by T) (start_tasks now op u c entities).2.
Proof.
  intros Hnow. revert c. induction entities as [|entity entities IH];
    intros c; simpl; [constructor|].
  destruct (start_task now op u c entity) as [[c1 slot] acts1] eqn:H1.
  specialize (IH c1).
  destruct (start_tasks now op u c1 entities) as [[c2 slots2] acts2].
  simpl in *. apply Forall_app. split; [|done].
  unfold start_task in H1. destruct (getEntityKey entity) as [key|].
  - pose proof (next_fetch_ends_by now T op u entity
                  (subtractRanges [u_range u]
                     (default [] (ranges (ensure_ranges key c) !! key)))
                  Hnow) as Hnext.
    destruct (next_fetch _ _ _ _ _) as [slot' acts'].
    by injection H1 as <- <- <-.
  - injection H1 as <- <- <-. constructor.
Qed.

Lemma run_queue_ends_by q now T c orph tr next :
  now <= T → Forall (ends_by T) tr →
  Forall (ends_by T) (trace (run_queue now c orph tr next q)).
Proof.
  intros Hnow. revert c orph tr.
  induction q as [|[op u] q IH]; intros c orph tr Htr; simpl; [done|].
  pose proof (start_tasks_ends_by now T op u (u_entities u)
                (if u_removeOutsideRange u
                 then removeOutsideRange c (u_range u) else c) Hnow) as Hacts.
  unfold start_update.
  destruct (start_tasks now op u _ (u_entities u)) as [[c' slots] acts].
  simpl in Hacts.
  assert (Forall (ends_by T) (tr ++ Started op :: acts)) as Htr'.
  { apply Forall_app. split; [done|]. by constructor. }
  destruct (promise_all slots) as [ok|]; simpl; [|done].
  apply IH, Forall_app. split; [done|]. by repeat constructor.
Qed.

Lemma settle_task_ends_by now T t answer c :
  now <= T → Forall (ends_by T) (settle_task now t answer c).2.
Proof.
  intros Hnow. destruct answer as [states|]; simpl; [|constructor].
  rewrite resume_task_eq.
  destruct (add c (t_entity t) (mark_boundary states) (recorded t));
    simpl; [|constructor].
  constructor; [done|]. by apply next_fetch_ends_by.
Qed.

Lemma step_ends_by w ev T :
  (∀ now, event_clock ev = Some now → now <= T) →
  Forall (ends_by T) (trace w) → Forall (ends_by T) (trace (step w ev)).
Proof.
  intros Hclock Htr.
  destruct ev as [u now|ref answer now|entity states r|r|]; simpl;
    try done.
  - specialize (Hclock now eq_refl). unfold update.
    destruct (current w); [done|]. by apply run_queue_ends_by.
  - specialize (Hclock now eq_refl). unfold respond.
    destruct ref as [i|i].
    + destruct (current w) as [[op slots]|]; [|done].
      destruct (slots !! i) as [[t| |]|]; try done.
      pose proof (settle_task_ends_by now T t answer (cache w) Hclock)
        as Hacts.
      destruct (settle_task now t answer (cache w)) as [[c' slot] acts].
      simpl in Hacts.
      assert (Forall (ends_by T) (trace w ++ acts)) as Htr'
        by (apply Forall_app; by split).
      destruct (promise_all _) as [ok|]; simpl; [|done].
      apply run_queue_ends_by; [done|].
      apply Forall_app. split; [done|]. by repeat constructor.
    + destruct (orphans w !! i) as [t|]; [|done].
      pose proof (settle_task_ends_by now T t answer (cache w) Hclock)
        as Hacts.
      destruct (settle_task now t answer (cache w)) as [[c' slot] acts].
      simpl in *. apply Forall_app. by split.
  - by destruct (add (cache w) entity states r).
Qed.

(** X11. The cache never asks the adapter for the future: in any run, the
    window of every call to the adapter ends at or before the latest clock
    reading of the run. *)
Theorem no_request_for_the_future (c : Cache) (evs : list Event) (T : Z)
  (op : nat) (call : AdapterCall) :
  Forall (λ ev, ∀ now, event_clock ev = Some now → now <= T) evs →
  Requested op call ∈ trace (run (init_world c) evs) →
  (call_window call).2 <=! Fin T.
Proof.
  intros Hclock Hin.
  assert (Forall (ends_by T) (trace (run (init_world c) evs))) as Hall.
  { clear Hin. induction evs as [|ev evs IH] using rev_ind; [constructor|].
    apply Forall_app in Hclock as [Hevs [Hev _]%Forall_cons].
    rewrite run_snoc. apply step_ends_by; auto. }
  rewrite Forall_forall in Hall. exact (Hall _ Hin).
Qed.

Lemma no_request_for_the_future_witness :
  (call_window (FetchStates sensor_b (zr 99 150) true true)).2 <=! Fin 150.
Proof.
  apply (no_request_for_the_future empty_cache
           [CallUpdate
              {| u_range := zr 100 200; u_removeOutsideRange := false;
                 u_entities := [sensor_b];
                 u_significant_changes_only := true;
                 u_minimal_response := true |} 150]
           150 0 (FetchStates sensor_b (zr 99 150) true true)).
  - constructor; [|constructor]. intros now [= <-]. reflexivity.
  - vm_compute. apply list_elem_of_further, list_elem_of_here.
Defined.

(** ** Well-formed series along a run without trim *)

Lemma histories_ok_same c c' :
  histories c' = histories c → histories_ok c → histories_ok c'.
Proof. intros Heq Hok key. rewrite Heq. apply Hok. Qed.

Lemma ensure_ranges_histories key c :
  histories (ensure_ranges key c) = histories c.
Proof. unfold ensure_ranges. by destruct (ranges c !! key). Qed.

Lemma start_tasks_histories now op u entities c :
  histories (start_tasks now op u c entities).1.1 = histories c.
Proof.
  revert c. induction entities as [|entity entities IH]; intros c; [done|].
  simpl.
  destruct (start_task now op u c entity) as [[c1 slot] acts1] eqn:H1.
  specialize (IH c1).
  destruct (start_tasks now op u c1 entities) as [[c2 slots2] acts2].
  simpl in *. rewrite IH. unfold start_task in H1.
  destruct (getEntityKey entity) as [key|].
  - destruct (next_fetch _ _ _ _ _) in H1. injection H1 as <- <- <-.
    apply ensure_ranges_histories.
  - by injection H1 as <- <- <-.
Qed.

Lemma settle_task_histories_ok now t answer c :
  histories_ok c → histories_ok (settle_task now t answer c).1.1.
Proof.
  intros Hok. destruct answer as [states|]; simpl; [|done].
  rewrite resume_task_eq.
  destruct (add c (t_entity t) (mark_boundary states) (recorded t))
    as [c'|] eqn:Hadd; simpl; [|done].
  intros key. by eapply add_histories_ok.
Qed.

Lemma run_queue_histories_ok q now c orph tr next :
  Forall (λ p : nat * UpdateArgs, u_removeOutsideRange p.2 = false) q →
  histories_ok c →
  histories_ok (cache (run_queue now c orph tr next q))
  ∧ Forall (λ p : nat * UpdateArgs, u_removeOutsideRange p.2 = false)
      (queue (run_queue now c orph tr next q)).
Proof.
  intros Hq. revert c orph tr.
  induction Hq as [|[op u] q Hu Hq IH]; intros c orph tr Hok; simpl.
  - split; [done|constructor].
  - simpl in Hu. unfold start_update. rewrite Hu.
    pose proof (start_tasks_histories now op u (u_entities u) c) as Hsame.
    destruct (start_tasks now op u c (u_entities u)) as [[c' slots] acts].
    simpl in Hsame.
    pose proof (histories_ok_same _ _ Hsame Hok) as Hok'.
    destruct (promise_all slots) as [ok|]; simpl; [by apply IH|done].
Qed.

Lemma step_histories_ok w ev :
  no_trim ev →
  histories_ok (cache w)
  ∧ Forall (λ p : nat * UpdateArgs, u_removeOutsideRange p.2 = false)
      (queue w) →
  histories_ok (cache (step w ev))
  ∧ Forall (λ p : nat * UpdateArgs, u_removeOutsideRange p.2 = false)
      (queue (step w ev)).
Proof.
  intros Hev [Hok Hq].
  destruct ev as [u now|ref answer now|entity states r|r|]; simpl.
  - simpl in Hev. unfold update.
    assert (Forall (λ p : nat * UpdateArgs, u_removeOutsideRange p.2 = false)
              (queue w ++ [(next_op w, u)])) as Hq'.
    { apply Forall_app. split; [done|]. by repeat constructor. }
    destruct (current w); [done|]. by apply run_queue_histories_ok.
  - unfold respond. destruct ref as [i|i].
    + destruct (current w) as [[op slots]|]; [|done].
      destruct (slots !! i) as [[t| |]|]; try done.
      pose proof (settle_task_histories_ok now t answer _ Hok) as Hok'.
      destruct (settle_task now t answer (cache w)) as [[c' slot] acts].
      simpl in Hok'.
      destruct (promise_all _) as [ok|]; simpl; [|done].
      by apply run_queue_histories_ok.
    + destruct (orphans w !! i) as [t|]; [|done].
      pose proof (settle_task_histories_ok now t answer _ Hok) as Hok'.
      by destruct (settle_task now t answer (cache w)) as [[c' slot] acts].
  - destruct (add (cache w) entity states r) as [c'|] eqn:Hadd; [|done].
    split; [|done]. intros key. by eapply add_histories_ok.
  - done.
  - split; [|done]. intros key. simpl. rewrite lookup_empty.
    apply history_ok_nil.
Qed.

(** X12. As long as nothing trims, every series stays well formed: in any
    run of calls of [add], [clearCache] and [update] without
    [removeOutsideRange], and of answers of the adapter, successful or not
    and in any order, from a cache whose series are well formed, the
    observations of every series are strictly ascending with a boundary
    point at index 0 only. *)
Theorem run_without_trim_keeps_histories_ok (c : Cache) (evs : list Event)
  (entity : EntityConfig) (h : list EntityState) :
  histories_ok c → Forall no_trim evs →
  getHistory (cache (run (init_world c) evs)) entity = Some h →
  history_ok h.
Proof.
  intros Hc Hevs Hh.
  assert (histories_ok (cache (run (init_world c) evs))
          ∧ Forall (λ p : nat * UpdateArgs, u_removeOutsideRange p.2 = false)
              (queue (run (init_world c) evs))) as [Hok _].
  { clear Hh. induction evs as [|ev evs IH] using rev_ind.
    - split; [done|constructor].
    - apply Forall_app in Hevs as [Hevs [Hev _]%Forall_cons].
      rewrite run_snoc. apply step_histories_ok; auto. }
  destruct (getEntityKey entity) as [key|] eqn:Hkey;
    [|by unfold getHistory in Hh; rewrite Hkey in Hh].
  rewrite <- (getHistory_held _ _ _ _ Hkey Hh). apply Hok.
Qed.

Lemma histories_ok_empty : histories_ok empty_cache.
Proof. intros key. simpl. rewrite lookup_empty. apply history_ok_nil. Qed.

Lemma run_without_trim_keeps_histories_ok_witness :
  history_ok [mkEntityState 99 "on" true; obs 120].
Proof.
  apply (run_without_trim_keeps_histories_ok empty_cache
           [CallUpdate
              {| u_range := zr 100 200; u_removeOutsideRange := false;
                 u_entities := [sensor_b];
                 u_significant_changes_only := true;
                 u_minimal_response := true |} 1000;
            Answer (OfCurrent 0) (Some [obs 99; obs 120]) 1001]
           sensor_b [mkEntityState 99 "on" true; obs 120]).
  - apply histories_ok_empty.
  - repeat constructor.
  - by vm_compute.
Defined.

(** ** Covered instants *)

(** X13. [add] extends what is covered for the series by the instants of
    the range, no more and no less, and leaves the covered ranges of the
    other series as they are (with [compactRanges] as modelled from the
    specification). *)
Theorem add_covers_exactly (c c' : Cache) (entity : EntityConfig)
  (key : string) (states : list EntityState) (r : TimestampRange) :
  getEntityKey entity = Some key → add c entity states r = Some c' →
  (∀ x : Z,
     in_ranges x (covered_of c' key)
     ↔ in_ranges x (covered_of c key) ∨ in_range x r)
  ∧ ∀ k, k ≠ key → covered_of c' k = covered_of c k.
Proof.
  intros Hkey Hadd.
  destruct (add_covered_of _ _ _ _ _ _ Hkey Hadd) as [Hcov Hother].
  split; [|done]. intros x.
  by rewrite Hcov, compactRanges_points, in_ranges_app, in_ranges_singleton.
Qed.

Lemma add_covers_exactly_witness :
  in_ranges 15
    (covered_of
       (add_call (add_call empty_cache (sensor_a, [], zr 0 10))
          (sensor_a, [], zr 5 20)) "sensor.a")
  ↔ in_ranges 15
      (covered_of (add_call empty_cache (sensor_a, [], zr 0 10)) "sensor.a")
    ∨ in_range 15 (zr 5 20).
Proof.
  exact (proj1 (add_covers_exactly
                  (add_call empty_cache (sensor_a, [], zr 0 10))
                  (add_call (add_call empty_cache (sensor_a, [], zr 0 10))
                     (sensor_a, [], zr 5 20))
                  sensor_a "sensor.a" [] (zr 5 20) eq_refl eq_refl) 15).
Defined.

(** X14. [removeOutsideRange] with a finite range whose start is at or
    before its end cuts what is covered down to the range: an instant is
    covered for a series afterwards exactly when it was covered before and
    lies in the range (with [subtractRanges] as modelled from the
    specification). *)
Theorem removeOutsideRange_cuts_coverage (c : Cache) (r : TimestampRange)
  (key : string) (x : Z) :
  finite r → ordered r →
  in_ranges x (covered_of (removeOutsideRange c r) key)
  ↔ in_ranges x (covered_of c key) ∧ in_range x r.
Proof.
  intros Hfin Hord. rewrite removeOutsideRange_covered_of.
  rewrite subtractRanges_points by by apply sentinels_disjoint.
  unfold uncovered. rewrite in_ranges_cons, in_ranges_singleton.
  generalize (in_ranges x (covered_of c key)). intros Q.
  revert Hfin. clear. range_lia.
Qed.

Lemma removeOutsideRange_cuts_coverage_witness :
  in_ranges 60
    (covered_of
       (removeOutsideRange (add_call empty_cache (sensor_a, [], zr 0 400))
          (zr 50 150)) "sensor.a")
  ↔ in_ranges 60
      (covered_of (add_call empty_cache (sensor_a, [], zr 0 400)) "sensor.a")
    ∧ in_range 60 (zr 50 150).
Proof.
  apply (removeOutsideRange_cuts_coverage
           (add_call empty_cache (sensor_a, [], zr 0 400)) (zr 50 150)
           "sensor.a" 60).
  - split; exact I.
  - reflexivity.
Defined.

Lemma add_history_origin c c' entity states r old new :
  add c entity states r = Some c' →
  getHistory c entity = Some old → getHistory c' entity = Some new →
  (∀ x, x ∈ new → x ∈ old ∨ x ∈ states)
  ∧ ∀ x y, x ∈ new → fake_boundary_datapoint x = true →
      y ∈ old ++ states → timestamp x <= timestamp y.
Proof.
  intros Hadd Hold Hnew.
  destruct (add_getHistory _ _ _ _ _ _ Hadd Hold) as (old' & Hold' & Hnew').
  rewrite Hold in Hold'. rewrite Hnew in Hnew'.
  injection Hold' as <-. injection Hnew' as ->.
  split; [intros x; apply merge_history_elem|].
  intros x y Hx Hflag Hy. rewrite merge_history_cons_form in Hx.
  destruct (sort_by_timestamp (old ++ states)) as [|x0 l] eqn:Hsort;
    [by apply elem_of_nil in Hx|].
  apply elem_of_cons in Hx as [->|Hx]; [by eapply sort_by_timestamp_head|].
  eapply elem_of_sublist in Hx; [|apply dedup_after_sublist].
  apply list_elem_of_filter in Hx as [Hno _]. congruence.
Qed.

(** ** The first observation of an answer *)

(** X15. The first observation of an answer is not kept when the series
    already holds an older observation: it is flagged before it is merged,
    and a flagged observation survives at the very start only, so whatever
    the series then holds at that timestamp was cached before or comes from
    the rest of the answer. *)
Theorem fetched_first_observation_dropped (c : Cache) (t : Task) (now : Z)
  (d : EntityState) (answer old new : list EntityState)
  (x y : EntityState) :
  getHistory c (t_entity t) = Some old →
  getHistory (settle_task now t (Some (d :: answer)) c).1.1 (t_entity t)
  = Some new →
  y ∈ old → timestamp y < timestamp d →
  x ∈ new → timestamp x = timestamp d →
  x ∈ old ∨ x ∈ answer.
Proof.
  intros Hold Hnew Hy Hlt Hx Hts. simpl in Hnew. rewrite resume_task_eq in Hnew.
  destruct (add c (t_entity t) (mark_boundary (d :: answer)) (recorded t))
    as [c'|] eqn:Hadd; simpl in Hnew.
  - destruct (add_history_origin _ _ _ _ _ _ _ Hadd Hold Hnew)
      as [Helem Hflag].
    destruct (Helem x Hx) as [?|Hin]; [by left|].
    simpl in Hin. apply elem_of_cons in Hin as [->|Hin]; [|by right].
    exfalso. specialize (Hflag _ y Hx eq_refl).
    simpl in Hflag, Hts. assert (timestamp d <= timestamp y); [|lia].
    apply Hflag. apply elem_of_app. by left.
  - rewrite Hold in Hnew. injection Hnew as <-. by left.
Qed.

Lemma fetched_first_observation_dropped_witness :
  mkEntityState 100 "off" false ∈ [obs 50]
  ∨ mkEntityState 100 "off" false ∈ [mkEntityState 100 "off" false; obs 120].
Proof.
  apply (fetched_first_observation_dropped
           (add_call empty_cache (sensor_a, [obs 50], zr 0 60))
           {| t_op := 0;
              t_args :=
                {| u_range := zr 100 200; u_removeOutsideRange := false;
                   u_entities := [sensor_a];
                   u_significant_changes_only := true;
                   u_minimal_response := true |};
              t_entity := sensor_a; t_gap := zr 100 200;
              t_now := 1000; t_rest := [] |}
           1001 (obs 100) [mkEntityState 100 "off" false; obs 120]
           [obs 50] [obs 50; mkEntityState 100 "off" false; obs 120]
           (mkEntityState 100 "off" false) (obs 50)).
  - by vm_compute.
  - by vm_compute.
  - apply list_elem_of_here.
  - reflexivity.
  - apply list_elem_of_further, list_elem_of_here.
  - reflexivity.
Defined.

(** ** Adding again what was already given *)

Lemma ascending_same_timestamp h x y :
  ascending h → x ∈ h → y ∈ h → timestamp x = timestamp y → x = y.
Proof.
  intros Hasc [i Hi]%list_elem_of_lookup [j Hj]%list_elem_of_lookup Hts.
  destruct (Nat.lt_trichotomy i j) as [Hlt|[->|Hlt]].
  - pose proof (Hasc _ _ _ _ Hi Hj Hlt). lia.
  - congruence.
  - pose proof (Hasc _ _ _ _ Hj Hi Hlt). lia.
Qed.

Lemma ascending_same_elements h1 h2 :
  ascending h1 → ascending h2 → (∀ x, x ∈ h1 ↔ x ∈ h2) → h1 = h2.
Proof.
  intros H1 H2 Helem.
  apply (StronglySorted_unique_strong ts_lt).
  - unfold ts_lt. intros; lia.
  - by apply ascending_sorted_lt.
  - by apply ascending_sorted_lt.
  - apply NoDup_Permutation; [| |done].
    + by eapply NoDup_fmap_1, ascending_NoDup.
    + by eapply NoDup_fmap_1, ascending_NoDup.
Qed.

(** Observations that bring nothing new to a well-formed series: the
    timestamp of each is already there, or it is flagged and not before the
    start of the series. *)
Lemma merge_history_absorb h s :
  history_ok h →
  (∀ x, x ∈ s →
     if fake_boundary_datapoint x
     then ∃ h0, head h = Some h0 ∧ timestamp h0 <= timestamp x
     else timestamp x ∈ (timestamp <$> h)) →
  merge_history h s = h.
Proof.
  intros (Hasc & Hdup & Hflag) Hs.
  destruct h as [|h0 h'].
  { destruct s as [|x s]; [done|]. exfalso.
    specialize (Hs x (list_elem_of_here _ _)).
    destruct (fake_boundary_datapoint x).
    - by destruct Hs as (? & ? & _).
    - by apply elem_of_nil in Hs. }
  destruct (ascending_cons _ _ Hasc) as [Hh0 Hasc'].
  rewrite Forall_forall in Hh0.
  assert (∀ y, y ∈ (h0 :: h') ++ s → timestamp h0 <= timestamp y) as Hmin.
  { intros y [[->|Hy]%elem_of_cons|Hy]%elem_of_app; [lia| |].
    - specialize (Hh0 y Hy). unfold ts_lt in Hh0. lia.
    - specialize (Hs y Hy). destruct (fake_boundary_datapoint y).
      + destruct Hs as (? & [= <-] & Hle). done.
      + apply list_elem_of_fmap in Hs as (z & -> & [->|Hz]%elem_of_cons);
          [lia|].
        specialize (Hh0 z Hz). unfold ts_lt in Hh0. lia. }
  pose proof (merge_history_ok (h0 :: h') s) as (Hrasc & _ & Hrflag).
  assert (∃ l, sort_by_timestamp ((h0 :: h') ++ s) = h0 :: l) as [l Hsort].
  { destruct (sort_by_timestamp_stable [] h0 (h' ++ s))
      as (pre & post & Hsort & Hpre); [constructor|].
    destruct pre as [|p pre]; [by exists post|]. exfalso.
    apply Forall_cons in Hpre as [Hp _].
    assert (p ∈ (h0 :: h') ++ s) as Hin.
    { apply sort_by_timestamp_elem. simpl in *. rewrite Hsort.
      apply list_elem_of_here. }
    specialize (Hmin p Hin). lia. }
  assert (h0 ∈ merge_history (h0 :: h') s) as Hhead.
  { rewrite merge_history_cons_form, Hsort. apply list_elem_of_here. }
  assert (∀ x, x ∈ merge_history (h0 :: h') s →
            fake_boundary_datapoint x = true → x = h0) as Honly.
  { intros x Hx Hxf. rewrite merge_history_cons_form, Hsort in Hx.
    apply elem_of_cons in Hx as [->|Hx]; [done|].
    eapply elem_of_sublist in Hx; [|apply dedup_after_sublist].
    apply list_elem_of_filter in Hx as [Hno _]. congruence. }
  assert (∀ y, y ∈ h0 :: h' → y ∈ merge_history (h0 :: h') s) as Hkeep.
  { intros y [->|Hy]%elem_of_cons; [done|].
    assert (fake_boundary_datapoint y = false) as Hyf.
    { destruct (fake_boundary_datapoint y) eqn:Hyf; [|done].
      apply list_elem_of_lookup in Hy as [j Hj].
      by specialize (Hflag (S j) y Hj Hyf). }
    assert (y ∈ h0 :: h') as Hy' by (apply elem_of_cons; by right).
    apply list_elem_of_split in Hy' as (l1 & l2 & Heq).
    apply (merge_history_keeps l1 y (l2 ++ s));
      [by rewrite Heq, <- app_assoc| |done].
    apply Forall_forall. intros a Ha.
    intros Hts. assert (a = y); [|subst a].
    { apply (ascending_same_timestamp (h0 :: h')); [done| | |done].
      - rewrite Heq. apply elem_of_app. by left.
      - apply elem_of_cons. by right. }
    apply list_elem_of_lookup in Ha as [i Hi].
    pose proof (lookup_lt_Some _ _ _ Hi) as Hlen.
    assert (timestamp y < timestamp y); [|lia].
    apply (Hasc i (length l1)); [|by rewrite Heq, list_lookup_middle|done].
    rewrite Heq. by apply lookup_app_l_Some. }
  apply ascending_same_elements; [done|done|].
  intros x. split; [|apply Hkeep].
  intros Hx. destruct (merge_history_elem _ _ _ Hx) as [?|Hxs]; [done|].
  specialize (Hs x Hxs).
  destruct (fake_boundary_datapoint x) eqn:Hxf.
  - rewrite (Honly x Hx Hxf). apply list_elem_of_here.
  - apply list_elem_of_fmap in Hs as (z & Hts & Hz).
    by rewrite (ascending_same_timestamp _ x z Hrasc Hx (Hkeep z Hz) Hts).
Qed.

(** X16. Adding again what the series was already given changes nothing:
    after an [add], a second [add] of observations each of which was held
    before the first or was part of it leaves the observations of the
    series as the first left them. *)
Theorem add_again_changes_nothing (c c1 c2 : Cache) (entity : EntityConfig)
  (old states again : list EntityState) (r r' : TimestampRange) :
  getHistory c entity = Some old →
  add c entity states r = Some c1 →
  (∀ x, x ∈ again → x ∈ old ++ states) →
  add c1 entity again r' = Some c2 →
  getHistory c2 entity = getHistory c1 entity.
Proof.
  intros Hold Hadd1 Hsub Hadd2.
  destruct (add_getHistory _ _ _ _ _ _ Hadd1 Hold) as (old' & Hold' & H1).
  rewrite Hold in Hold'. injection Hold' as <-.
  destruct (add_getHistory _ _ _ _ _ _ Hadd2 H1) as (h1 & H1' & H2).
  rewrite H1 in H1'. injection H1' as <-.
  rewrite H1, H2. f_equal.
  apply merge_history_absorb; [apply merge_history_ok|].
  intros x Hx. specialize (Hsub x Hx).
  destruct (fake_boundary_datapoint x) eqn:Hxf.
  - rewrite merge_history_cons_form.
    destruct (sort_by_timestamp (old ++ states)) as [|x0 l] eqn:Hsort.
    + apply sort_by_timestamp_elem in Hsub. rewrite Hsort in Hsub.
      by apply elem_of_nil in Hsub.
    + exists x0. split; [done|]. by eapply sort_by_timestamp_head.
  - rewrite merge_history_cons_form.
    apply sort_by_timestamp_elem in Hsub.
    destruct (sort_by_timestamp (old ++ states)) as [|x0 l];
      [by apply elem_of_nil in Hsub|].
    rewrite fmap_cons.
    apply elem_of_cons in Hsub as [->|Hsub]; [apply elem_of_cons; by left|].
    assert (x ∈ filter (λ y, fake_boundary_datapoint y = false) l) as Hx'
      by by apply list_elem_of_filter.
    apply elem_of_cons.
    destruct (dedup_after_timestamps (timestamp x0) _ _ Hx'); auto.
Qed.

Lemma add_again_changes_nothing_witness :
  getHistory
    (add_call
       (add_call empty_cache
          (sensor_a, [mkEntityState 99 "on" true; obs 100; obs 120],
           zr 100 200))
       (sensor_a, [mkEntityState 99 "on" true; obs 120], zr 110 200))
    sensor_a
  = getHistory
      (add_call empty_cache
         (sensor_a, [mkEntityState 99 "on" true; obs 100; obs 120],
          zr 100 200))
      sensor_a.
Proof.
  apply (add_again_changes_nothing empty_cache
           (add_call empty_cache
              (sensor_a, [mkEntityState 99 "on" true; obs 100; obs 120],
               zr 100 200))
           (add_call
              (add_call empty_cache
                 (sensor_a, [mkEntityState 99 "on" true; obs 100; obs 120],
                  zr 100 200))
              (sensor_a, [mkEntityState 99 "on" true; obs 120], zr 110 200))
           sensor_a [] [mkEntityState 99 "on" true; obs 100; obs 120]
           [mkEntityState 99 "on" true; obs 120] (zr 100 200) (zr 110 200)).
  - reflexivity.
  - reflexivity.
  - intros x [->|[->|[]%elem_of_nil]%elem_of_cons]%elem_of_cons.
    + apply list_elem_of_here.
    + apply list_elem_of_further, list_elem_of_further, list_elem_of_here.
  - reflexivity.
Defined.

(** ** The order in which updates start *)

Lemma started_ops_app tr1 tr2 :
  started_ops (tr1 ++ tr2) = started_ops tr1 ++ started_ops tr2.
Proof. apply omap_app. Qed.

Lemma next_fetch_starts_nothing now op u entity gaps :
  started_ops (next_fetch now op u entity gaps).2 = [].
Proof. by destruct gaps. Qed.

Lemma start_tasks_starts_nothing now op u entities c :
  started_ops (start_tasks now op u c entities).2 = [].
Proof.
  revert c. induction entities as [|entity entities IH]; intros c; [done|].
  simpl.
  destruct (start_task now op u c entity) as [[c1 slot] acts1] eqn:H1.
  specialize (IH c1).
  destruct (start_tasks now op u c1 entities) as [[c2 slots2] acts2].
  simpl in *. rewrite started_ops_app, IH, app_nil_r.
  unfold start_task in H1. destruct (getEntityKey entity) as [key|].
  - pose proof (next_fetch_starts_nothing now op u entity
                  (subtractRanges [u_range u]
                     (default [] (ranges (ensure_ranges key c) !! key))))
      as Hnext.
    destruct (next_fetch _ _ _ _ _) as [slot' acts'].
    by injection H1 as <- <- <-.
  - by injection H1 as <- <- <-.
Qed.

Lemma settle_task_starts_nothing now t answer c :
  started_ops (settle_task now t answer c).2 = [].
Proof.
  destruct answer as [states|]; simpl; [|done]. rewrite resume_task_eq.
  destruct (add c (t_entity t) (mark_boundary states) (recorded t));
    simpl; [|done].
  apply next_fetch_starts_nothing.
Qed.

Lemma run_queue_started q now c orph tr next :
  started_ops (trace (run_queue now c orph tr next q))
    ++ (fst <$> queue (run_queue now c orph tr next q))
  = started_ops tr ++ (fst <$> q)
  ∧ next_op (run_queue now c orph tr next q) = next.
Proof.
  revert c orph tr. induction q as [|[op u] q IH]; intros c orph tr; simpl.
  - done.
  - pose proof (start_tasks_starts_nothing now op u (u_entities u)
                  (if u_removeOutsideRange u
                   then removeOutsideRange c (u_range u) else c)) as Hacts.
    unfold start_update.
    destruct (start_tasks now op u _ (u_entities u)) as [[c' slots] acts].
    simpl in Hacts.
    assert (started_ops (tr ++ Started op :: acts) = started_ops tr ++ [op])
      as Htr.
    { rewrite started_ops_app.
      change (started_ops (Started op :: acts)) with (op :: started_ops acts).
      by rewrite Hacts. }
    destruct (promise_all slots) as [ok|]; simpl.
    + destruct (IH c' (orph ++ omap running_task slots)
                  ((tr ++ Started op :: acts) ++ [Settled op ok]))
        as [-> ->].
      split; [|done]. rewrite started_ops_app, Htr. simpl.
      by rewrite app_nil_r, <- app_assoc.
    + split; [|done]. by rewrite Htr, <- app_assoc.
Qed.

Lemma step_started w ev :
  started_ops (trace w) ++ (fst <$> queue w) = seq 0 (next_op w) →
  started_ops (trace (step w ev)) ++ (fst <$> queue (step w ev))
  = seq 0 (next_op (step w ev)).
Proof.
  intros Hw.
  destruct ev as [u now|ref answer now|entity states r|r|]; simpl;
    try done.
  - unfold update. destruct (current w).
    + cbn [queue trace next_op].
      by rewrite fmap_app, app_assoc, Hw, seq_S.
    + destruct (run_queue_started (queue w ++ [(next_op w, u)]) now
                  (cache w) (orphans w) (trace w) (S (next_op w)))
        as [-> ->].
      by rewrite fmap_app, app_assoc, Hw, seq_S.
  - unfold respond. destruct ref as [i|i].
    + destruct (current w) as [[op slots]|]; [|done].
      destruct (slots !! i) as [[t| |]|]; try done.
      pose proof (settle_task_starts_nothing now t answer (cache w)) as Hacts.
      destruct (settle_task now t answer (cache w)) as [[c' slot] acts].
      simpl in Hacts.
      destruct (promise_all _) as [ok|]; simpl.
      * destruct (run_queue_started (queue w) now c'
                    (orphans w ++ omap running_task (<[i:=slot]> slots))
                    ((trace w ++ acts) ++ [Settled op ok]) (next_op w))
          as [-> ->].
        rewrite !started_ops_app, Hacts. simpl. by rewrite !app_nil_r.
      * by rewrite started_ops_app, Hacts, app_nil_r.
    + destruct (orphans w !! i) as [t|]; [|done].
      pose proof (settle_task_starts_nothing now t answer (cache w)) as Hacts.
      destruct (settle_task now t answer (cache w)) as [[c' slot] acts].
      simpl in *. by rewrite started_ops_app, Hacts, app_nil_r.
  - by destruct (add (cache w) entity states r).
Qed.

(** X17. Updates start in the order of their calls, each once: in any run,
    the operations started so far, in the order of their start, followed by
    the operations still waiting on [busy], in the order of the chain, are
    the calls of [update] in the order they were made. *)
Theorem updates_start_in_call_order (c : Cache) (evs : list Event) :
  started_ops (trace (run (init_world c) evs))
    ++ (fst <$> queue (run (init_world c) evs))
  = seq 0 (next_op (run (init_world c) evs)).
Proof.
  induction evs as [|ev evs IH] using rev_ind; [done|].
  rewrite run_snoc. by apply step_started.
Qed.
